(** * Snakerman: the simulation engine of the Snake game

    A shallow embedding of the three copies of the [Game] class of the
    repository and the properties of its specification:

    - [Toroidal]   is [src/lib/game.ts]: wrap-around edges, obstacles;
    - [ToroidalJs] is the JavaScript copy of the same class, whose [step]
      leaves the [ate] key out of a fatal result;
    - [Bounded]    is the TypeScript copy with walls and no obstacles.
    - [Main]       is the tick of the game loop in [src/main.js], which calls
      [setDirection] and [step] and updates the page.

    Modelling conventions.
    - JavaScript numbers are modelled by [Z]: coordinates, grid sizes, score
      and growth counter are integers (no fraction, no NaN, no precision
      loss).  On integers [a % n] is [Z.rem a n] for [n <> 0]; it is NaN for
      [n = 0], which is why the results on the wrapped step assume a positive
      grid, as the constructor's contract does.
    - Objects [{x, y}] are values: the engine never mutates a point after it
      stored it, so sharing cannot be observed.
    - [Math.floor(Math.random() * n)] is an index below [n] chosen by the
      environment.  Every operation takes that choice as an argument: a
      natural number [r], used as [r mod n].  All indices below [n] arise.
    - [step] reads [this.snake[0].x]; on an empty array that throws a
      TypeError, modelled by the completion [Throws]. *)

From Stdlib Require Import ZArith List Bool Lia.
From Stdlib Require String DecimalString.
Import ListNotations.
Open Scope Z_scope.

(** ** Points and the helpers shared by the three copies *)

Record Point : Type := mkPoint { x : Z; y : Z }.

(** The point [(a, b)]. *)
Definition pt (a b : Z) : Point := {| x := a; y := b |}.

(** [p.x === q.x && p.y === q.y] *)
Definition same_cell (p q : Point) : bool :=
  (x p =? x q) && (y p =? y q).

(** [occupied.has(`${c.x},${c.y}`)] for the set built from the keys of the
    points of [occupied]: on integers the key is injective, so the test is
    membership up to [same_cell]. *)
Definition has (occupied : list Point) (c : Point) : bool :=
  existsb (fun p => same_cell p c) occupied.

(** The values of [i] in [for (let i = 0; i < n; i++)]. *)
Definition upto (n : Z) : list Z :=
  map Z.of_nat (seq 0 (Z.to_nat n)).

(** The array [free] after the two nested loops over [x] and [y]. *)
Definition freeCells (cols rows : Z) (occupied : list Point) : list Point :=
  flat_map
    (fun cx =>
       flat_map
         (fun cy =>
            let c := {| x := cx; y := cy |} in
            if negb (has occupied c) then [c] else [])
         (upto rows))
    (upto cols).

(** [Math.floor(Math.random() * n)], for the environment's choice [r]. *)
Definition randomIndex (r : nat) (n : nat) : nat := Nat.modulo r n.

(** A source of random choices: the k-th call of [Math.random]. *)
Definition Rng : Type := nat -> nat.
Definition rng_next (rs : Rng) : Rng := fun k => rs (S k).

(** [free.splice(idx, 1)]: the array without its element at [idx]. *)
Definition spliceOut (idx : nat) (free : list Point) : list Point :=
  firstn idx free ++ skipn (S idx) free.

(** [((a % n) + n) % n] *)
Definition wrap (a n : Z) : Z := Z.rem (Z.rem a n + n) n.

Inductive Reason : Type := wall | self | obstacle.

(** How a call ends: with a value, or with the TypeError of reading a
    property of [undefined]. *)
Inductive Completion (A : Type) : Type :=
| Returns (a : A)
| Throws.
Arguments Returns {A} a.
Arguments Throws {A}.

(** The result of [step] in the TypeScript copies. *)
Record StepResult : Type :=
  mkResult { ate : bool; died : bool; reason : option Reason }.

(** The reversal of a direction, [(-d.x, -d.y)]. *)
Definition reversed (d : Point) : Point := {| x := - x d; y := - y d |}.

(** ** src/lib/game.ts *)

Module Toroidal.

Record Game : Type := mkGame {
  cols : Z;
  rows : Z;
  obstacleCount : Z;
  snake : list Point;
  direction : Point;
  nextDirection : Point;
  food : option Point;
  score : Z;
  over : bool;
  growAmount : Z;
  obstacles : list Point
}.

(** Assignments to one field. *)
Definition set_snake (v : list Point) (g : Game) : Game :=
  mkGame (cols g) (rows g) (obstacleCount g) v (direction g)
         (nextDirection g) (food g) (score g) (over g) (growAmount g)
         (obstacles g).
Definition set_direction (v : Point) (g : Game) : Game :=
  mkGame (cols g) (rows g) (obstacleCount g) (snake g) v
         (nextDirection g) (food g) (score g) (over g) (growAmount g)
         (obstacles g).
Definition set_nextDirection (v : Point) (g : Game) : Game :=
  mkGame (cols g) (rows g) (obstacleCount g) (snake g) (direction g)
         v (food g) (score g) (over g) (growAmount g) (obstacles g).
Definition set_food (v : option Point) (g : Game) : Game :=
  mkGame (cols g) (rows g) (obstacleCount g) (snake g) (direction g)
         (nextDirection g) v (score g) (over g) (growAmount g)
         (obstacles g).
Definition set_score (v : Z) (g : Game) : Game :=
  mkGame (cols g) (rows g) (obstacleCount g) (snake g) (direction g)
         (nextDirection g) (food g) v (over g) (growAmount g)
         (obstacles g).
Definition set_over (v : bool) (g : Game) : Game :=
  mkGame (cols g) (rows g) (obstacleCount g) (snake g) (direction g)
         (nextDirection g) (food g) (score g) v (growAmount g)
         (obstacles g).
Definition set_growAmount (v : Z) (g : Game) : Game :=
  mkGame (cols g) (rows g) (obstacleCount g) (snake g) (direction g)
         (nextDirection g) (food g) (score g) (over g) v (obstacles g).
Definition set_obstacles (v : list Point) (g : Game) : Game :=
  mkGame (cols g) (rows g) (obstacleCount g) (snake g) (direction g)
         (nextDirection g) (food g) (score g) (over g) (growAmount g) v.

(** The selection loop of [generateObstacles]: at most [count] rounds,
    each moving one random cell of [free] to the end of [acc]. *)
Fixpoint pickObstacles (count : nat) (free : list Point) (rs : Rng)
         (acc : list Point) : list Point * Rng :=
  match count with
  | O => (acc, rs)
  | S count' =>
      match free with
      | [] => (acc, rs)
      | c :: _ =>
          let idx := randomIndex (rs O) (length free) in
          let pos := nth idx free c in
          pickObstacles count' (spliceOut idx free) (rng_next rs)
                        (acc ++ [pos])
      end
  end.

Definition generateObstacles (count : Z) (g : Game) (rs : Rng)
  : Game * Rng :=
  let g := set_obstacles [] g in
  if count <=? 0 then (g, rs)
  else
    let occupied := snake g in
    let free := freeCells (cols g) (rows g) occupied in
    let '(obs, rs') := pickObstacles (Z.to_nat count) free rs [] in
    (set_obstacles obs g, rs').

Definition placeFood (g : Game) (r : nat) : Game :=
  let occupied := snake g ++ obstacles g in
  let free := freeCells (cols g) (rows g) occupied in
  match free with
  | [] => set_food None g
  | c :: _ =>
      set_food (Some (nth (randomIndex r (length free)) free c)) g
  end.

Definition reset (g : Game) (rs : Rng) : Game :=
  let midX := cols g / 2 in
  let midY := rows g / 2 in
  let g := set_snake [ {| x := midX; y := midY |};
                       {| x := midX - 1; y := midY |};
                       {| x := midX - 2; y := midY |} ] g in
  let g := set_direction {| x := 1; y := 0 |} g in
  let g := set_nextDirection (direction g) g in
  let g := set_score 0 g in
  let g := set_over false g in
  let g := set_growAmount 0 g in
  let '(g, rs) := generateObstacles (obstacleCount g) g rs in
  placeFood g (rs O).

(** [new Game({cols, rows, obstacleCount})]; [None] is a key left out. *)
Definition new_Game (cols rows obstacleCount : option Z) (rs : Rng)
  : Game :=
  let cols := match cols with Some c => c | None => 24 end in
  let rows := match rows with Some c => c | None => 24 end in
  let obstacleCount :=
    match obstacleCount with
    | Some n => n
    | None => (cols * rows) / 50
    end in
  reset (mkGame cols rows (Z.max 0 obstacleCount) []
                {| x := 0; y := 0 |} {| x := 0; y := 0 |} None 0 false 0 [])
        rs.

Definition setDirection (g : Game) (dir : Point) : Game :=
  if (x dir =? - x (direction g)) && (y dir =? - y (direction g))
  then g
  else set_nextDirection dir g.

(** The candidate head of [step], after the wrap. *)
Definition newHead (g : Game) (head : Point) : Point :=
  {| x := wrap (x head + x (direction g)) (cols g);
     y := wrap (y head + y (direction g)) (rows g) |}.

(** The food check of [step] on the moved snake: the [ate] flag and the
    state after it. *)
Definition eat (g : Game) (nh : Point) (r : nat) : bool * Game :=
  match food g with
  | Some f =>
      if (x nh =? x f) && (y nh =? y f)
      then (true,
            placeFood (set_growAmount (growAmount g + 1)
                         (set_score (score g + 1) g)) r)
      else (false, g)
  | None => (false, g)
  end.

(** The growth stage of [step]. *)
Definition grow (g : Game) : Game :=
  if 0 <? growAmount g
  then set_growAmount (growAmount g - 1) g
  else set_snake (removelast (snake g)) g.

Definition step (g : Game) (r : nat) : Completion StepResult * Game :=
  if over g then (Returns (mkResult false true None), g)
  else
    let g := set_direction (nextDirection g) g in
    match snake g with
    | [] => (Throws, g)
    | head :: _ =>
        let nh := newHead g head in
        if existsb (fun o => same_cell o nh) (obstacles g) then
          (Returns (mkResult false true (Some obstacle)), set_over true g)
        else if existsb (fun seg => same_cell seg nh) (snake g) then
          (Returns (mkResult false true (Some self)), set_over true g)
        else
          let g := set_snake (nh :: snake g) g in
          let '(ate, g) := eat g nh r in
          let g := grow g in
          (Returns (mkResult ate false None), g)
    end.

(** The calls a client makes, with the random choices each may use. *)
Inductive Call : Type :=
| CallReset (rs : Rng)
| CallSetDirection (dir : Point)
| CallStep (r : nat).

Definition perform (g : Game) (c : Call) : Game :=
  match c with
  | CallReset rs => reset g rs
  | CallSetDirection dir => setDirection g dir
  | CallStep r => snd (step g r)
  end.

(** The state after a sequence of calls, first call first. *)
Definition run (calls : list Call) (g : Game) : Game :=
  fold_left perform calls g.

Definition is_reset (c : Call) : bool :=
  match c with CallReset _ => true | _ => false end.

End Toroidal.

(** ** The JavaScript copy of the toroidal engine

    Its fields and its methods [reset], [generateObstacles], [placeFood] and
    [setDirection] are those of [Toroidal], statement for statement
    ([placeFood] reads [this.obstacles || []], the same array once the
    constructor ran).  Its [step] differs in the fatal results, objects
    without the [ate] key. *)

Module ToroidalJs.

Import Toroidal.

(** [{ ate?, died, reason? }]: [None] is a key the object does not have. *)
Record StepResultJs : Type :=
  mkResultJs { ate_js : option bool; died_js : bool;
               reason_js : option Reason }.

Definition step (g : Game) (r : nat) : Completion StepResultJs * Game :=
  if over g then (Returns (mkResultJs None true None), g)
  else
    let g := set_direction (nextDirection g) g in
    match snake g with
    | [] => (Throws, g)
    | head :: _ =>
        let nh := newHead g head in
        if existsb (fun o => same_cell o nh) (obstacles g) then
          (Returns (mkResultJs None true (Some obstacle)), set_over true g)
        else if existsb (fun seg => same_cell seg nh) (snake g) then
          (Returns (mkResultJs None true (Some self)), set_over true g)
        else
          let g := set_snake (nh :: snake g) g in
          let '(ate, g) := eat g nh r in
          let g := grow g in
          (Returns (mkResultJs (Some ate) false None), g)
    end.

End ToroidalJs.

(** ** The bounded TypeScript copy: walls and no obstacles *)

Module Bounded.

Record Game : Type := mkGame {
  cols : Z;
  rows : Z;
  snake : list Point;
  direction : Point;
  nextDirection : Point;
  food : option Point;
  score : Z;
  over : bool;
  growAmount : Z
}.

Definition set_snake (v : list Point) (g : Game) : Game :=
  mkGame (cols g) (rows g) v (direction g) (nextDirection g) (food g)
         (score g) (over g) (growAmount g).
Definition set_direction (v : Point) (g : Game) : Game :=
  mkGame (cols g) (rows g) (snake g) v (nextDirection g) (food g)
         (score g) (over g) (growAmount g).
Definition set_nextDirection (v : Point) (g : Game) : Game :=
  mkGame (cols g) (rows g) (snake g) (direction g) v (food g)
         (score g) (over g) (growAmount g).
Definition set_food (v : option Point) (g : Game) : Game :=
  mkGame (cols g) (rows g) (snake g) (direction g) (nextDirection g) v
         (score g) (over g) (growAmount g).
Definition set_score (v : Z) (g : Game) : Game :=
  mkGame (cols g) (rows g) (snake g) (direction g) (nextDirection g)
         (food g) v (over g) (growAmount g).
Definition set_over (v : bool) (g : Game) : Game :=
  mkGame (cols g) (rows g) (snake g) (direction g) (nextDirection g)
         (food g) (score g) v (growAmount g).
Definition set_growAmount (v : Z) (g : Game) : Game :=
  mkGame (cols g) (rows g) (snake g) (direction g) (nextDirection g)
         (food g) (score g) (over g) v.

Definition placeFood (g : Game) (r : nat) : Game :=
  let occupied := snake g in
  let free := freeCells (cols g) (rows g) occupied in
  match free with
  | [] => set_food None g
  | c :: _ =>
      set_food (Some (nth (randomIndex r (length free)) free c)) g
  end.

Definition reset (g : Game) (r : nat) : Game :=
  let midX := cols g / 2 in
  let midY := rows g / 2 in
  let g := set_snake [ {| x := midX; y := midY |};
                       {| x := midX - 1; y := midY |};
                       {| x := midX - 2; y := midY |} ] g in
  let g := set_direction {| x := 1; y := 0 |} g in
  let g := set_nextDirection (direction g) g in
  let g := set_score 0 g in
  let g := set_over false g in
  let g := set_growAmount 0 g in
  placeFood g r.

Definition setDirection (g : Game) (dir : Point) : Game :=
  if (x dir =? - x (direction g)) && (y dir =? - y (direction g))
  then g
  else set_nextDirection dir g.

(** The candidate head of [step]: no wrap here. *)
Definition newHead (g : Game) (head : Point) : Point :=
  {| x := x head + x (direction g); y := y head + y (direction g) |}.

(** [nh.x < 0 || nh.x >= cols || nh.y < 0 || nh.y >= rows] *)
Definition outside (g : Game) (nh : Point) : bool :=
  (x nh <? 0) || (cols g <=? x nh) || (y nh <? 0) || (rows g <=? y nh).

Definition eat (g : Game) (nh : Point) (r : nat) : bool * Game :=
  match food g with
  | Some f =>
      if (x nh =? x f) && (y nh =? y f)
      then (true,
            placeFood (set_growAmount (growAmount g + 1)
                         (set_score (score g + 1) g)) r)
      else (false, g)
  | None => (false, g)
  end.

Definition grow (g : Game) : Game :=
  if 0 <? growAmount g
  then set_growAmount (growAmount g - 1) g
  else set_snake (removelast (snake g)) g.

Definition step (g : Game) (r : nat) : Completion StepResult * Game :=
  if over g then (Returns (mkResult false true None), g)
  else
    let g := set_direction (nextDirection g) g in
    match snake g with
    | [] => (Throws, g)
    | head :: _ =>
        let nh := newHead g head in
        if outside g nh then
          (Returns (mkResult false true (Some wall)), set_over true g)
        else if existsb (fun seg => same_cell seg nh) (snake g) then
          (Returns (mkResult false true (Some self)), set_over true g)
        else
          let g := set_snake (nh :: snake g) g in
          let '(ate, g) := eat g nh r in
          let g := grow g in
          (Returns (mkResult ate false None), g)
    end.

End Bounded.

(** ** Engine invariants of the toroidal engine *)

(** The grid the constructor's contract asks for. *)
Definition grid_ok (g : Toroidal.Game) : Prop :=
  0 < Toroidal.cols g /\ 0 < Toroidal.rows g.

(** No snake segment lies on an obstacle. *)
Definition clear_of_obstacles (g : Toroidal.Game) : Prop :=
  forall p, In p (Toroidal.snake g) -> ~ In p (Toroidal.obstacles g).

(** A cell of the grid. *)
Definition in_grid (cols rows : Z) (c : Point) : Prop :=
  0 <= x c < cols /\ 0 <= y c < rows.

(** ** Example states, to run the engine on concrete inputs *)

(** A snake of four closing a 2 x 2 loop on a 6 x 6 grid: its head at (2,2)
    moves up onto its own tail at (2,1). *)
Definition loop_game : Toroidal.Game :=
  Toroidal.mkGame 6 6 0 [pt 2 2; pt 3 2; pt 3 1; pt 2 1]
                  (pt (-1) 0) (pt 0 (-1)) (Some (pt 5 5)) 1 false 0 [].

(** A fresh 10 x 10 game without obstacles. *)
Definition fresh10 : Toroidal.Game :=
  Toroidal.new_Game (Some 10) (Some 10) (Some 0) (fun _ => 0%nat).

(** A 24 x 24 game, no obstacles, head on the right edge at (23,7). *)
Definition edge_game : Toroidal.Game :=
  Toroidal.mkGame 24 24 0 [pt 23 7; pt 22 7; pt 21 7]
                  (pt 1 0) (pt 1 0) (Some (pt 4 4)) 0 false 0 [].

(** A 5 x 5 game with an obstacle right of the head. *)
Definition blocked_game : Toroidal.Game :=
  Toroidal.mkGame 5 5 1 [pt 2 2; pt 1 2; pt 0 2]
                  (pt 1 0) (pt 1 0) (Some (pt 4 4)) 0 false 0 [pt 3 2].

(** A bounded 10 x 10 game with the head on the left edge, heading left. *)
Definition left_edge_game : Bounded.Game :=
  Bounded.mkGame 10 10 [pt 0 4; pt 0 5; pt 0 6]
                 (pt 0 (-1)) (pt (-1) 0) (Some (pt 7 7)) 0 false 0.

(** A bounded game whose snake closes a 2 x 2 loop. *)
Definition bounded_loop_game : Bounded.Game :=
  Bounded.mkGame 6 6 [pt 2 2; pt 3 2; pt 3 1; pt 2 1]
                 (pt (-1) 0) (pt 0 (-1)) (Some (pt 5 5)) 1 false 0.

(** ** Notions the properties are stated with *)

(** The candidate head [step] computes in state [g] for the head [head]:
    the queued direction is committed first. *)
Definition candidate (g : Toroidal.Game) (head : Point) : Point :=
  Toroidal.newHead (Toroidal.set_direction (Toroidal.nextDirection g) g) head.

Definition candidate_bounded (g : Bounded.Game) (head : Point) : Point :=
  Bounded.newHead (Bounded.set_direction (Bounded.nextDirection g) g) head.

(** What a fatal step leaves as it was. *)
Definition fatal_keeps (g g' : Toroidal.Game) : Prop :=
  Toroidal.over g' = true /\
  Toroidal.snake g' = Toroidal.snake g /\
  Toroidal.score g' = Toroidal.score g /\
  Toroidal.food g' = Toroidal.food g /\
  Toroidal.obstacles g' = Toroidal.obstacles g.

Definition fatal_keeps_bounded (g g' : Bounded.Game) : Prop :=
  Bounded.over g' = true /\
  Bounded.snake g' = Bounded.snake g /\
  Bounded.score g' = Bounded.score g /\
  Bounded.food g' = Bounded.food g.

(** Repeated calls of [step], one random choice per call: the results in
    order and the state after the last call. *)
Fixpoint steps (rs : list nat) (g : Toroidal.Game)
  : list (Completion StepResult) * Toroidal.Game :=
  match rs with
  | [] => ([], g)
  | r :: rs' =>
      let '(c, g1) := Toroidal.step g r in
      let '(cs, g2) := steps rs' g1 in
      (c :: cs, g2)
  end.

(** What a call of [step] adds to the meals: 1 when it returns
    [ate = true]. *)
Definition meal (c : Completion StepResult) : Z :=
  match c with
  | Returns res => if ate res then 1 else 0
  | Throws => 0
  end.

(** The number of steps of a sequence of calls that report [ate = true]. *)
Fixpoint meals (calls : list Toroidal.Call) (g : Toroidal.Game) : Z :=
  match calls with
  | [] => 0
  | c :: calls' =>
      (match c with
       | Toroidal.CallStep r => meal (fst (Toroidal.step g r))
       | _ => 0
       end) + meals calls' (Toroidal.perform g c)
  end.

(** A sequence of calls without [reset]. *)
Definition no_reset (calls : list Toroidal.Call) : Prop :=
  existsb Toroidal.is_reset calls = false.

(** A direction request [setDirection] accepts in state [g]. *)
Definition accepted (g : Toroidal.Game) (dir : Point) : bool :=
  negb (same_cell dir (reversed (Toroidal.direction g))).

(** A cell of the grid that neither the snake nor an obstacle occupies. *)
Definition free_cell (g : Toroidal.Game) (c : Point) : Prop :=
  in_grid (Toroidal.cols g) (Toroidal.rows g) c /\
  ~ In c (Toroidal.snake g) /\
  ~ In c (Toroidal.obstacles g).

(** What holds of every state the engine reaches from a reset on a
    positive grid. *)
Definition engine_invariant (g : Toroidal.Game) : Prop :=
  grid_ok g /\
  Toroidal.snake g <> [] /\
  Toroidal.growAmount g = 0 /\
  clear_of_obstacles g.

(** [setDirection] called with each request of [dirs] in turn. *)
Definition setDirections (dirs : list Point) (g : Toroidal.Game)
  : Toroidal.Game :=
  fold_left Toroidal.setDirection dirs g.

(** ** Notions for the properties of whole rounds *)

(** The four directions the keyboard handlers pass to [setDirection]. *)
Definition unit_dir (d : Point) : Prop :=
  d = pt 1 0 \/ d = pt (-1) 0 \/ d = pt 0 1 \/ d = pt 0 (-1).

(** The direction requests of a sequence of calls, in order. *)
Definition requests (calls : list Toroidal.Call) : list Point :=
  flat_map
    (fun c =>
       match c with
       | Toroidal.CallSetDirection d => [d]
       | _ => []
       end)
    calls.

(** All cells of a list lie in the grid of [g]. *)
Definition all_in_grid (g : Toroidal.Game) (l : list Point) : Prop :=
  forall p, In p l -> in_grid (Toroidal.cols g) (Toroidal.rows g) p.

(** The food, when there is one, is a free cell. *)
Definition food_is_free (g : Toroidal.Game) : Prop :=
  forall f, Toroidal.food g = Some f -> free_cell g f.

(** The second segment lies one step behind the head, against the current
    direction and up to the wrap. *)
Definition neck_behind (g : Toroidal.Game) : Prop :=
  forall h n rest,
    Toroidal.snake g = h :: n :: rest ->
    (x h - x (Toroidal.direction g) - x n) mod Toroidal.cols g = 0 /\
    (y h - y (Toroidal.direction g) - y n) mod Toroidal.rows g = 0.

(** The result of the JavaScript copy that corresponds to a result of the
    TypeScript class: a fatal result has no [ate] key. *)
Definition to_js (res : StepResult) : ToroidalJs.StepResultJs :=
  ToroidalJs.mkResultJs (if died res then None else Some (ate res))
                        (died res) (reason res).

Definition completion_map {A B : Type} (f : A -> B) (c : Completion A)
  : Completion B :=
  match c with
  | Returns a => Returns (f a)
  | Throws => Throws
  end.

(** The state of the bounded engine with the fields of a toroidal state:
    the obstacle fields are dropped. *)
Definition to_bounded (g : Toroidal.Game) : Bounded.Game :=
  Bounded.mkGame (Toroidal.cols g) (Toroidal.rows g) (Toroidal.snake g)
                 (Toroidal.direction g) (Toroidal.nextDirection g)
                 (Toroidal.food g) (Toroidal.score g) (Toroidal.over g)
                 (Toroidal.growAmount g).

(** The calls a client makes to the bounded engine, and their effect. *)
Inductive BoundedCall : Type :=
| BReset (r : nat)
| BSetDirection (dir : Point)
| BStep (r : nat).

Definition bounded_perform (g : Bounded.Game) (c : BoundedCall)
  : Bounded.Game :=
  match c with
  | BReset r => Bounded.reset g r
  | BSetDirection dir => Bounded.setDirection g dir
  | BStep r => snd (Bounded.step g r)
  end.

Definition bounded_run (calls : list BoundedCall) (g : Bounded.Game)
  : Bounded.Game :=
  fold_left bounded_perform calls g.

(** What holds of every state of a round, beyond [engine_invariant]: the
    segments are pairwise distinct, the snake has grown by one segment per
    point scored, the food is a free cell, and the obstacles are distinct
    cells of the grid. *)
Definition round_invariant (g : Toroidal.Game) : Prop :=
  engine_invariant g /\
  NoDup (Toroidal.snake g) /\
  Z.of_nat (length (Toroidal.snake g)) = 3 + Toroidal.score g /\
  0 <= Toroidal.score g /\
  food_is_free g /\
  NoDup (Toroidal.obstacles g) /\
  all_in_grid g (Toroidal.obstacles g).

(** The direction requests of a sequence of calls are unit vectors. *)
Definition unit_requests (calls : list Toroidal.Call) : Prop :=
  forall d, In d (requests calls) -> unit_dir d.

(** What holds of the directions in every state of a round whose requests
    are unit vectors: both directions are unit vectors, the queued one is not
    the reversal of the current one, and in a running game the second
    segment is where the head came from. *)
Definition heading_invariant (g : Toroidal.Game) : Prop :=
  unit_dir (Toroidal.direction g) /\
  unit_dir (Toroidal.nextDirection g) /\
  Toroidal.nextDirection g <> reversed (Toroidal.direction g) /\
  (Toroidal.over g = false -> neck_behind g).

(** ** src/main.js: the tick of the game loop

    [input.consume()] returns the [dir] field of the input object, the
    direction of the last mapped key; [scoreEl.textContent] and
    [pauseBtn.textContent] are the two texts of the page the tick writes.
    [main.js] imports the JavaScript copy of the engine.  [String(n)] is the
    decimal numeral of an integer [n] (below 10^21 in absolute value). *)

Module Main.

Import String.

Record Ui : Type := mkUi {
  game : Toroidal.Game;
  input_dir : Point;
  running : bool;
  scoreText : string;
  pauseText : string
}.

Definition String_of (n : Z) : string :=
  DecimalString.NilZero.string_of_int (Z.to_int n).

(** [if (v)] for an optional boolean: a missing key is falsy. *)
Definition truthy (v : option bool) : bool :=
  match v with
  | Some b => b
  | None => false
  end.

Definition stepTick (u : Ui) (r : nat) : Completion unit * Ui :=
  let dir := input_dir u in
  let g := Toroidal.setDirection (game u) dir in
  match ToroidalJs.step g r with
  | (Throws, g) =>
      (Throws, mkUi g (input_dir u) (running u) (scoreText u) (pauseText u))
  | (Returns res, g) =>
      let scoreText' :=
        if truthy (ToroidalJs.ate_js res)
        then String_of (Toroidal.score g)
        else scoreText u in
      if ToroidalJs.died_js res
      then (Returns tt, mkUi g (input_dir u) false scoreText' "Restart")
      else (Returns tt,
            mkUi g (input_dir u) (running u) scoreText' (pauseText u))
  end.

(** An example page: a fresh 10 x 10 game, the up key pressed last. *)
Definition fresh_page : Ui :=
  mkUi fresh10 (pt 0 (-1)) true "0" "Pause".

End Main.

(** The score text shows the score of the game. *)
Definition display_in_sync (u : Main.Ui) : Prop :=
  Main.scoreText u = Main.String_of (Toroidal.score (Main.game u)).


(** * Properties *)

(** ** Points, wrap and the free cells *)

Lemma same_cell_eq (p q : Point) : same_cell p q = true <-> p = q.
Proof.
  unfold same_cell. rewrite andb_true_iff, !Z.eqb_eq.
  destruct p as [a b], q as [c d]; simpl. split.
  - intros [-> ->]. reflexivity.
  - intros E. injection E as -> ->. split; reflexivity.
Qed.

Lemma has_In (l : list Point) (c : Point) : has l c = true <-> In c l.
Proof.
  unfold has. rewrite existsb_exists. split.
  - intros [p [Hp E]]. apply same_cell_eq in E. subst p. exact Hp.
  - intros Hc. exists c. split; [exact Hc | now apply same_cell_eq].
Qed.

Lemma existsb_same_cell (l : list Point) (c : Point) :
  existsb (fun p => same_cell p c) l = has l c.
Proof. reflexivity. Qed.

Lemma has_false (l : list Point) (c : Point) : has l c = false <-> ~ In c l.
Proof.
  rewrite <- has_In. destruct (has l c); split; intros H; try reflexivity.
  - discriminate.
  - exfalso. now apply H.
  - discriminate.
Qed.

Lemma wrap_mod (a n : Z) : 0 < n -> wrap a n = a mod n.
Proof.
  intros Hn. unfold wrap.
  assert (Hr : - n < Z.rem a n < n).
  { destruct (Z_le_gt_dec 0 a) as [Ha | Ha].
    - pose proof (Z.rem_bound_pos a n Ha Hn). lia.
    - assert (- n < Z.rem a n <= 0)
        by (apply Z.rem_bound_pos_neg; lia).
      lia. }
  rewrite Z.rem_mod_nonneg by lia.
  assert (E : Z.rem a n = a - n * (a ÷ n)).
  { pose proof (Z.quot_rem' a n). lia. }
  rewrite E.
  replace (a - n * (a ÷ n) + n) with (a + (1 - a ÷ n) * n) by lia.
  apply Z.mod_add. lia.
Qed.

Lemma wrap_range (a n : Z) : 0 < n -> 0 <= wrap a n < n.
Proof.
  intros Hn. rewrite wrap_mod by exact Hn. apply Z.mod_pos_bound. exact Hn.
Qed.

Lemma In_upto (n i : Z) : In i (upto n) <-> 0 <= i < n.
Proof.
  unfold upto. rewrite in_map_iff. split.
  - intros [k [<- Hk]]. apply in_seq in Hk. lia.
  - intros Hi. exists (Z.to_nat i). split; [lia | apply in_seq; lia].
Qed.

Lemma In_freeCells (cols rows : Z) (occupied : list Point) (c : Point) :
  In c (freeCells cols rows occupied) <->
  in_grid cols rows c /\ ~ In c occupied.
Proof.
  unfold freeCells, in_grid. rewrite in_flat_map. split.
  - intros [cx [Hx Hc]]. apply in_flat_map in Hc. destruct Hc as [cy [Hy Hc]].
    apply In_upto in Hx. apply In_upto in Hy.
    destruct (has occupied {| x := cx; y := cy |}) eqn:Hocc; simpl in Hc.
    + contradiction.
    + destruct Hc as [<- | []]. simpl. apply has_false in Hocc. tauto.
  - intros [[Hx Hy] Hfree]. exists (x c). split; [now apply In_upto |].
    apply in_flat_map. exists (y c). split; [now apply In_upto |].
    destruct c as [cx cy]; simpl in *.
    apply has_false in Hfree. rewrite Hfree. simpl. now left.
Qed.

Lemma randomIndex_lt (r n : nat) : (0 < n)%nat -> (randomIndex r n < n)%nat.
Proof. intros Hn. unfold randomIndex. apply Nat.mod_upper_bound. lia. Qed.

Lemma random_cell_In (r : nat) (free : list Point) (d : Point) :
  free <> [] -> In (nth (randomIndex r (length free)) free d) free.
Proof.
  intros Hne. apply nth_In. apply randomIndex_lt.
  destruct free; [contradiction | simpl; lia].
Qed.

Lemma length_removelast_cons (a : Point) (l : list Point) :
  length (removelast (a :: l)) = length l.
Proof.
  revert a. induction l as [| b l IH]; intros a; [reflexivity |].
  change (removelast (a :: b :: l)) with (a :: removelast (b :: l)).
  cbn [length]. now rewrite IH.
Qed.

Lemma In_removelast (p : Point) (l : list Point) :
  In p (removelast l) -> In p l.
Proof.
  induction l as [| a l IH]; [intros [] |].
  destruct l as [| b l]; [intros [] |].
  change (removelast (a :: b :: l)) with (a :: removelast (b :: l)).
  intros [-> | H]; [now left | right; now apply IH].
Qed.

(** ** The shape of a step of the toroidal engine *)

Section ToroidalStep.

Import Toroidal.

Lemma step_when_over (g : Game) (r : nat) :
  over g = true -> step g r = (Returns (mkResult false true None), g).
Proof. intros Ho. unfold step. now rewrite Ho. Qed.

(** A step of a running game with a head, stage by stage. *)
Lemma step_running (g : Game) (r : nat) (head : Point) (rest : list Point) :
  over g = false ->
  snake g = head :: rest ->
  step g r =
    let g1 := set_direction (nextDirection g) g in
    let c := candidate g head in
    if has (obstacles g) c then
      (Returns (mkResult false true (Some obstacle)), set_over true g1)
    else if has (snake g) c then
      (Returns (mkResult false true (Some self)), set_over true g1)
    else
      (Returns (mkResult (fst (eat (set_snake (c :: snake g) g1) c r))
                         false None),
       grow (snd (eat (set_snake (c :: snake g) g1) c r))).
Proof.
  intros Ho Hs. unfold step, candidate. rewrite Ho.
  cbn [snake obstacles set_direction]. rewrite Hs.
  rewrite !existsb_same_cell. cbn zeta.
  destruct (has (obstacles g) _); [reflexivity |].
  destruct (has (head :: rest) _); [reflexivity |].
  destruct (eat _ _ r) as [a g2]. reflexivity.
Qed.

Lemma step_no_head (g : Game) (r : nat) :
  over g = false -> snake g = [] ->
  step g r = (Throws, set_direction (nextDirection g) g).
Proof.
  intros Ho Hs. unfold step. rewrite Ho. cbn [snake set_direction].
  now rewrite Hs.
Qed.

Lemma placeFood_only_food (g : Game) (r : nat) :
  placeFood g r = set_food (food (placeFood g r)) g.
Proof.
  unfold placeFood. destruct (freeCells _ _ _); reflexivity.
Qed.

(** What the food check changes: score and growth counter go up by one
    exactly when it reports a meal; the food may move. *)
Lemma eat_effect (g : Game) (nh : Point) (r : nat) :
  let a := fst (eat g nh r) in
  let g2 := snd (eat g nh r) in
  score g2 = score g + Z.b2z a /\
  growAmount g2 = growAmount g + Z.b2z a /\
  snake g2 = snake g /\ obstacles g2 = obstacles g /\
  cols g2 = cols g /\ rows g2 = rows g /\ over g2 = over g /\
  direction g2 = direction g /\ nextDirection g2 = nextDirection g /\
  obstacleCount g2 = obstacleCount g.
Proof.
  unfold eat. destruct (food g) as [f |].
  - destruct ((x nh =? x f) && (y nh =? y f)).
    + cbn [fst snd]. rewrite placeFood_only_food. cbn. repeat split.
    + cbn. repeat split; lia.
  - cbn. repeat split; lia.
Qed.

Lemma grow_effect (g : Game) :
  score (grow g) = score g /\ obstacles (grow g) = obstacles g /\
  cols (grow g) = cols g /\ rows (grow g) = rows g /\
  over (grow g) = over g /\ food (grow g) = food g /\
  direction (grow g) = direction g /\
  nextDirection (grow g) = nextDirection g /\
  obstacleCount (grow g) = obstacleCount g.
Proof. unfold grow. destruct (0 <? growAmount g); cbn; repeat split. Qed.

End ToroidalStep.

(** ** The shape of a step of the bounded engine *)

Section BoundedStep.

Import Bounded.

Lemma bounded_step_when_over (g : Game) (r : nat) :
  over g = true -> step g r = (Returns (mkResult false true None), g).
Proof. intros Ho. unfold step. now rewrite Ho. Qed.

Lemma bounded_step_running (g : Game) (r : nat) (head : Point)
      (rest : list Point) :
  over g = false ->
  snake g = head :: rest ->
  step g r =
    let g1 := set_direction (nextDirection g) g in
    let c := candidate_bounded g head in
    if outside g c then
      (Returns (mkResult false true (Some wall)), set_over true g1)
    else if has (snake g) c then
      (Returns (mkResult false true (Some self)), set_over true g1)
    else
      (Returns (mkResult (fst (eat (set_snake (c :: snake g) g1) c r))
                         false None),
       grow (snd (eat (set_snake (c :: snake g) g1) c r))).
Proof.
  intros Ho Hs. unfold step, candidate_bounded. rewrite Ho.
  cbn [snake set_direction]. rewrite Hs.
  rewrite !existsb_same_cell. cbn zeta.
  change (outside (set_direction (nextDirection g) g))
    with (outside g).
  destruct (outside g _); [reflexivity |].
  destruct (has (head :: rest) _); [reflexivity |].
  destruct (eat _ _ r) as [a g2]. reflexivity.
Qed.

Lemma outside_spec (g : Game) (c : Point) :
  outside g c = true <-> ~ in_grid (cols g) (rows g) c.
Proof.
  unfold outside, in_grid.
  rewrite !orb_true_iff, !Z.ltb_lt, !Z.leb_le. lia.
Qed.

End BoundedStep.

(** ** Fatal collisions *)

Lemma step_on_obstacle (g : Toroidal.Game) (r : nat) (head : Point)
      (rest : list Point) :
  Toroidal.over g = false ->
  Toroidal.snake g = head :: rest ->
  In (candidate g head) (Toroidal.obstacles g) ->
  Toroidal.step g r
  = (Returns (mkResult false true (Some obstacle)),
     Toroidal.set_over true
       (Toroidal.set_direction (Toroidal.nextDirection g) g)).
Proof.
  intros Ho Hs Hobs. rewrite (step_running g r head rest Ho Hs). cbn zeta.
  apply has_In in Hobs. now rewrite Hobs.
Qed.

Lemma step_on_snake (g : Toroidal.Game) (r : nat) (head : Point)
      (rest : list Point) :
  Toroidal.over g = false ->
  Toroidal.snake g = head :: rest ->
  In (candidate g head) (Toroidal.snake g) ->
  ~ In (candidate g head) (Toroidal.obstacles g) ->
  Toroidal.step g r
  = (Returns (mkResult false true (Some self)),
     Toroidal.set_over true
       (Toroidal.set_direction (Toroidal.nextDirection g) g)).
Proof.
  intros Ho Hs Hself Hclear. rewrite (step_running g r head rest Ho Hs).
  cbn zeta. apply has_false in Hclear. rewrite Hclear.
  apply has_In in Hself. now rewrite Hself.
Qed.

(** C1.  In a running game, a candidate head on an obstacle makes [step]
    return [died = true] with reason [obstacle]; a candidate head on a
    segment of the snake, reason [self]; in the bounded engine a candidate
    head outside the grid, reason [wall].  Each time [over] becomes true and
    snake, score, food and obstacles stay as they were.  The checks run in
    the order of the code: obstacle before self, wall before self.  (The
    engine keeps the snake off the obstacles, see
    [run_keeps_engine_invariant], so the first order never decides.) *)
Theorem step_fatal_collision :
  (forall (g : Toroidal.Game) (r : nat) (head : Point) (rest : list Point),
      grid_ok g ->
      Toroidal.over g = false ->
      Toroidal.snake g = head :: rest ->
      (In (candidate g head) (Toroidal.obstacles g) ->
       exists g',
         Toroidal.step g r
         = (Returns (mkResult false true (Some obstacle)), g') /\
         fatal_keeps g g') /\
      (In (candidate g head) (Toroidal.snake g) ->
       ~ In (candidate g head) (Toroidal.obstacles g) ->
       exists g',
         Toroidal.step g r = (Returns (mkResult false true (Some self)), g') /\
         fatal_keeps g g')) /\
  (forall (g : Bounded.Game) (r : nat) (head : Point) (rest : list Point),
      Bounded.over g = false ->
      Bounded.snake g = head :: rest ->
      (~ in_grid (Bounded.cols g) (Bounded.rows g) (candidate_bounded g head) ->
       exists g',
         Bounded.step g r = (Returns (mkResult false true (Some wall)), g') /\
         fatal_keeps_bounded g g') /\
      (In (candidate_bounded g head) (Bounded.snake g) ->
       in_grid (Bounded.cols g) (Bounded.rows g) (candidate_bounded g head) ->
       exists g',
         Bounded.step g r = (Returns (mkResult false true (Some self)), g') /\
         fatal_keeps_bounded g g')).
Proof.
  split.
  - intros g r head rest _ Ho Hs. split.
    + intros Hobs. rewrite (step_on_obstacle g r head rest Ho Hs Hobs).
      eexists. split; [reflexivity |]. repeat split.
    + intros Hself Hclear.
      rewrite (step_on_snake g r head rest Ho Hs Hself Hclear).
      eexists. split; [reflexivity |]. repeat split.
  - intros g r head rest Ho Hs.
    rewrite (bounded_step_running g r head rest Ho Hs). cbn zeta. split.
    + intros Hout. apply outside_spec in Hout. rewrite Hout.
      eexists. split; [reflexivity |]. repeat split.
    + intros Hself Hin.
      destruct (Bounded.outside g (candidate_bounded g head)) eqn:Hout.
      * apply outside_spec in Hout. contradiction.
      * apply has_In in Hself. rewrite Hself.
        eexists. split; [reflexivity |]. repeat split.
Qed.

Lemma step_fatal_collision_witness :
  (exists g',
      Toroidal.step blocked_game 0
      = (Returns (mkResult false true (Some obstacle)), g') /\
      fatal_keeps blocked_game g') /\
  (exists g',
      Toroidal.step loop_game 0
      = (Returns (mkResult false true (Some self)), g') /\
      fatal_keeps loop_game g') /\
  (exists g',
      Bounded.step left_edge_game 0
      = (Returns (mkResult false true (Some wall)), g') /\
      fatal_keeps_bounded left_edge_game g') /\
  (exists g',
      Bounded.step bounded_loop_game 0
      = (Returns (mkResult false true (Some self)), g') /\
      fatal_keeps_bounded bounded_loop_game g').
Proof.
  destruct step_fatal_collision as [T B].
  split; [| split; [| split]].
  - apply (T blocked_game 0%nat (pt 2 2) [pt 1 2; pt 0 2]).
    + unfold grid_ok; simpl; lia.
    + reflexivity.
    + reflexivity.
    + vm_compute. left. reflexivity.
  - apply (T loop_game 0%nat (pt 2 2) [pt 3 2; pt 3 1; pt 2 1]).
    + unfold grid_ok; simpl; lia.
    + reflexivity.
    + reflexivity.
    + vm_compute. right. right. right. left. reflexivity.
    + vm_compute. intros [].
  - apply (B left_edge_game 0%nat (pt 0 4) [pt 0 5; pt 0 6]).
    + reflexivity.
    + reflexivity.
    + vm_compute. intros [[H _] _]. apply H. reflexivity.
  - apply (B bounded_loop_game 0%nat (pt 2 2) [pt 3 2; pt 3 1; pt 2 1]).
    + reflexivity.
    + reflexivity.
    + vm_compute. right. right. right. left. reflexivity.
    + vm_compute. repeat split; discriminate.
Defined.

(** ** Growth *)

(** C2.  In a running game of the engine (positive grid, a snake with a
    head, no pending growth), [step] returns; when it reports [ate = true]
    the snake is one segment longer than before, and when it reports
    [ate = false] and [died = false] the snake has the length it had. *)
Theorem step_growth (g : Toroidal.Game) (r : nat) :
  grid_ok g ->
  Toroidal.over g = false ->
  Toroidal.snake g <> [] ->
  Toroidal.growAmount g = 0 ->
  exists res g',
    Toroidal.step g r = (Returns res, g') /\
    (ate res = true ->
     length (Toroidal.snake g') = S (length (Toroidal.snake g))) /\
    (ate res = false -> died res = false ->
     length (Toroidal.snake g') = length (Toroidal.snake g)).
Proof.
  intros _ Ho Hne Hgrow.
  destruct (Toroidal.snake g) as [| head rest] eqn:Hs; [contradiction |].
  rewrite (step_running g r head rest Ho Hs). cbn zeta.
  destruct (has (Toroidal.obstacles g) (candidate g head)).
  { do 2 eexists. split; [reflexivity |]. cbn. split; discriminate. }
  destruct (has (Toroidal.snake g) (candidate g head)).
  { do 2 eexists. split; [reflexivity |]. cbn. split; discriminate. }
  do 2 eexists. split; [reflexivity |]. cbn [ate died].
  match goal with |- context [Toroidal.eat ?s ?c r] =>
    pose proof (eat_effect s c r) as E; cbn zeta in E;
    destruct E as (_ & Eg & Es & _)
  end.
  cbn [Toroidal.snake Toroidal.growAmount Toroidal.set_snake
       Toroidal.set_direction] in Eg, Es.
  rewrite Hgrow in Eg. unfold Toroidal.grow.
  destruct (fst (Toroidal.eat _ _ r)); cbn [Z.b2z] in Eg; rewrite Eg.
  - split; [intros _ | discriminate]. change (0 <? 0 + 1) with true.
    cbn [Toroidal.snake Toroidal.set_growAmount]. rewrite Es, Hs.
    reflexivity.
  - split; [discriminate | intros _ _]. change (0 <? 0 + 0) with false.
    cbn [Toroidal.snake Toroidal.set_snake].
    rewrite Es, length_removelast_cons, Hs. reflexivity.
Qed.

Lemma step_growth_witness :
  exists res g',
    Toroidal.step edge_game 0 = (Returns res, g') /\
    (ate res = true ->
     length (Toroidal.snake g') = S (length (Toroidal.snake edge_game))) /\
    (ate res = false -> died res = false ->
     length (Toroidal.snake g') = length (Toroidal.snake edge_game)).
Proof.
  apply (step_growth edge_game 0%nat).
  - unfold grid_ok; simpl; lia.
  - reflexivity.
  - discriminate.
  - reflexivity.
Defined.

(** ** A finished game *)

(** C3.  Once [over] is true, [step] returns [died = true] and the state
    after the call is the state before it, field for field; so do any number
    of repeated calls.  This holds for the three copies of the engine (the
    JavaScript copy returns [{ died: true }], without [ate]). *)
Theorem step_over_idempotent :
  (forall (g : Toroidal.Game) (r : nat),
      Toroidal.over g = true ->
      Toroidal.step g r = (Returns (mkResult false true None), g)) /\
  (forall (g : Toroidal.Game) (rs : list nat),
      Toroidal.over g = true ->
      steps rs g = (map (fun _ => Returns (mkResult false true None)) rs, g)) /\
  (forall (g : Toroidal.Game) (r : nat),
      Toroidal.over g = true ->
      ToroidalJs.step g r
      = (Returns (ToroidalJs.mkResultJs None true None), g)) /\
  (forall (g : Bounded.Game) (r : nat),
      Bounded.over g = true ->
      Bounded.step g r = (Returns (mkResult false true None), g)).
Proof.
  split; [exact step_when_over |].
  split; [| split; [| exact bounded_step_when_over]].
  - intros g rs Ho. induction rs as [| r rs IH]; [reflexivity |].
    cbn [steps map]. rewrite (step_when_over g r Ho), IH. reflexivity.
  - intros g r Ho. unfold ToroidalJs.step. now rewrite Ho.
Qed.

(** A finished game: the snake of [loop_game] after its fatal step. *)
Lemma step_over_idempotent_witness :
  let g := snd (Toroidal.step loop_game 0) in
  Toroidal.over g = true /\
  Toroidal.step g 5 = (Returns (mkResult false true None), g) /\
  steps [1; 2; 3]%nat g
  = (map (fun _ => Returns (mkResult false true None)) [1; 2; 3]%nat, g).
Proof.
  cbv zeta. split; [reflexivity |]. split.
  - apply (proj1 step_over_idempotent). reflexivity.
  - apply (proj1 (proj2 step_over_idempotent)). reflexivity.
Defined.

(** ** The tail counts as occupied *)

(** C4.  In a running game the self check of [step] looks at every segment
    the snake has before the move, the tail included: a candidate head on
    the tail makes [step] return [died = true] with reason [self] and sets
    [over], whatever the growth counter is (so also when it is 0 and the tail
    was about to be dropped); the snake stays as it was. *)
Theorem step_tail_is_occupied
        (g : Toroidal.Game) (r : nat) (head : Point) (rest : list Point) :
  grid_ok g ->
  clear_of_obstacles g ->
  Toroidal.over g = false ->
  Toroidal.snake g = head :: rest ->
  candidate g head = last (Toroidal.snake g) head ->
  exists g',
    Toroidal.step g r = (Returns (mkResult false true (Some self)), g') /\
    Toroidal.over g' = true /\
    Toroidal.snake g' = Toroidal.snake g.
Proof.
  intros Hgrid Hclear Ho Hs Htail.
  assert (Hin : In (candidate g head) (Toroidal.snake g)).
  { rewrite Htail, Hs.
    destruct (exists_last (l := head :: rest)) as [l [a E]]; [discriminate |].
    rewrite E, last_last. apply in_or_app. right. now left. }
  rewrite (step_on_snake g r head rest Ho Hs Hin (Hclear _ Hin)).
  eexists. split; [reflexivity |]. split; reflexivity.
Qed.

Lemma step_tail_is_occupied_witness :
  exists g',
    Toroidal.step loop_game 0
    = (Returns (mkResult false true (Some self)), g') /\
    Toroidal.over g' = true /\
    Toroidal.snake g' = Toroidal.snake loop_game.
Proof.
  apply (step_tail_is_occupied loop_game 0%nat (pt 2 2)
           [pt 3 2; pt 3 1; pt 2 1]).
  - unfold grid_ok; simpl; lia.
  - intros p _ [].
  - reflexivity.
  - reflexivity.
  - reflexivity.
Defined.

(** ** Direction requests *)

Section Directions.

Import Toroidal.

Lemma reversal_test (g : Game) (dir : Point) :
  (x dir =? - x (direction g)) && (y dir =? - y (direction g))
  = negb (accepted g dir).
Proof. unfold accepted, same_cell, reversed. now rewrite negb_involutive. Qed.

Lemma accepted_iff (g : Game) (dir : Point) :
  accepted g dir = true <-> dir <> reversed (direction g).
Proof.
  unfold accepted. rewrite negb_true_iff.
  destruct (same_cell dir (reversed (direction g))) eqn:E.
  - apply same_cell_eq in E. split; [discriminate | contradiction].
  - split; [| reflexivity]. intros _ H. apply same_cell_eq in H. congruence.
Qed.

Lemma setDirection_cases (g : Game) (dir : Point) :
  setDirection g dir = if accepted g dir then set_nextDirection dir g else g.
Proof.
  unfold setDirection. rewrite reversal_test. now destruct (accepted g dir).
Qed.

Lemma setDirection_direction (g : Game) (dir : Point) :
  direction (setDirection g dir) = direction g.
Proof. rewrite setDirection_cases. now destruct (accepted g dir). Qed.

Lemma setDirections_snoc (dirs : list Point) (dir : Point) (g : Game) :
  setDirections (dirs ++ [dir]) g = setDirection (setDirections dirs g) dir.
Proof. unfold setDirections. now rewrite fold_left_app. Qed.

Lemma setDirections_direction (dirs : list Point) (g : Game) :
  direction (setDirections dirs g) = direction g.
Proof.
  induction dirs as [| dir dirs IH] using rev_ind; [reflexivity |].
  now rewrite setDirections_snoc, setDirection_direction.
Qed.

Lemma setDirections_over (dirs : list Point) (g : Game) :
  over (setDirections dirs g) = over g.
Proof.
  induction dirs as [| dir dirs IH] using rev_ind; [reflexivity |].
  rewrite setDirections_snoc, setDirection_cases.
  now destruct (accepted _ dir).
Qed.

Lemma setDirections_nextDirection (dirs : list Point) (g : Game) :
  nextDirection (setDirections dirs g)
  = last (filter (accepted g) dirs) (nextDirection g).
Proof.
  induction dirs as [| dir dirs IH] using rev_ind; [reflexivity |].
  rewrite setDirections_snoc, setDirection_cases, filter_app.
  assert (A : accepted (setDirections dirs g) dir = accepted g dir).
  { unfold accepted. now rewrite setDirections_direction. }
  rewrite A. cbn [filter]. destruct (accepted g dir).
  - now rewrite last_last.
  - now rewrite app_nil_r.
Qed.

(** A step of a running game commits the queued direction. *)
Lemma step_commits_direction (g : Game) (r : nat) :
  over g = false -> direction (snd (step g r)) = nextDirection g.
Proof.
  intros Ho. destruct (snake g) as [| head rest] eqn:Hs.
  - now rewrite (step_no_head g r Ho Hs).
  - rewrite (step_running g r head rest Ho Hs). cbn zeta.
    destruct (has (obstacles g) _); [reflexivity |].
    destruct (has (snake g) _); [reflexivity |].
    cbn [snd].
    match goal with |- context [eat ?s ?c r] =>
      pose proof (eat_effect s c r) as E; cbn zeta in E
    end.
    destruct (grow_effect (snd (eat
      (set_snake (candidate g head :: snake g)
         (set_direction (nextDirection g) g)) (candidate g head) r)))
      as (_ & _ & _ & _ & _ & _ & D & _).
    rewrite D. destruct E as (_ & _ & _ & _ & _ & _ & _ & D' & _).
    now rewrite D'.
Qed.

End Directions.

(** C5.  [setDirection] with the reversal of the current direction returns
    the state it was given; with any other vector (so with each of the other
    three unit vectors) it stores the vector in [nextDirection] and changes
    nothing else.  No number of calls changes [direction]; after several
    calls [nextDirection] is the last request that was not a reversal (the
    old [nextDirection] when there is none), and that is the direction the
    next step of a running game commits. *)
Theorem setDirection_rejects_reversal :
  (forall g : Toroidal.Game,
      Toroidal.setDirection g (reversed (Toroidal.direction g)) = g) /\
  (forall (g : Toroidal.Game) (dir : Point),
      dir <> reversed (Toroidal.direction g) ->
      Toroidal.setDirection g dir = Toroidal.set_nextDirection dir g) /\
  (forall (g : Toroidal.Game) (dirs : list Point),
      Toroidal.direction (setDirections dirs g) = Toroidal.direction g /\
      Toroidal.nextDirection (setDirections dirs g)
      = last (filter (accepted g) dirs) (Toroidal.nextDirection g)) /\
  (forall (g : Toroidal.Game) (dirs : list Point) (r : nat),
      Toroidal.over g = false ->
      Toroidal.direction (snd (Toroidal.step (setDirections dirs g) r))
      = last (filter (accepted g) dirs) (Toroidal.nextDirection g)).
Proof.
  split; [| split; [| split]].
  - intros g. rewrite setDirection_cases.
    destruct (accepted g _) eqn:A; [| reflexivity].
    apply accepted_iff in A. contradiction.
  - intros g dir Hd. apply accepted_iff in Hd.
    now rewrite setDirection_cases, Hd.
  - intros g dirs. split.
    + apply setDirections_direction.
    + apply setDirections_nextDirection.
  - intros g dirs r Ho. rewrite step_commits_direction.
    + apply setDirections_nextDirection.
    + now rewrite setDirections_over.
Qed.

(** On a fresh game, heading right: up is stored, left is refused. *)
Lemma setDirection_rejects_reversal_witness :
  Toroidal.setDirection fresh10 (pt 0 (-1))
  = Toroidal.set_nextDirection (pt 0 (-1)) fresh10 /\
  Toroidal.direction
    (snd (Toroidal.step
            (setDirections [pt 0 1; pt 0 (-1); pt (-1) 0] fresh10) 0))
  = pt 0 (-1).
Proof.
  destruct setDirection_rejects_reversal as (_ & Acc & _ & Next).
  split.
  - apply (Acc fresh10 (pt 0 (-1))). discriminate.
  - apply (Next fresh10 [pt 0 1; pt 0 (-1); pt (-1) 0] 0%nat). reflexivity.
Defined.

(** ** Food placement *)

Lemma free_cell_freeCells (g : Toroidal.Game) (c : Point) :
  In c (freeCells (Toroidal.cols g) (Toroidal.rows g)
                  (Toroidal.snake g ++ Toroidal.obstacles g))
  <-> free_cell g c.
Proof.
  rewrite In_freeCells. unfold free_cell. rewrite in_app_iff. tauto.
Qed.

(** C6.  For every random choice, [placeFood] changes the food only; when
    some cell of the grid is free of snake and obstacles the food is such a
    cell, so it lies on no segment and on no obstacle; when no cell is free
    the food is [null]. *)
Theorem placeFood_picks_free_cell (g : Toroidal.Game) (r : nat) :
  Toroidal.placeFood g r
  = Toroidal.set_food (Toroidal.food (Toroidal.placeFood g r)) g /\
  ((exists c, free_cell g c) ->
   exists f,
     Toroidal.food (Toroidal.placeFood g r) = Some f /\
     free_cell g f /\
     ~ In f (Toroidal.snake g) /\
     ~ In f (Toroidal.obstacles g)) /\
  ((forall c, ~ free_cell g c) ->
   Toroidal.food (Toroidal.placeFood g r) = None).
Proof.
  split; [apply placeFood_only_food |].
  unfold Toroidal.placeFood.
  destruct (freeCells _ _ _) as [| c0 free] eqn:Hfree.
  - split.
    + intros [c Hc]. apply free_cell_freeCells in Hc.
      rewrite Hfree in Hc. destruct Hc.
    + reflexivity.
  - assert (Hin : In (nth (randomIndex r (length (c0 :: free)))
                          (c0 :: free) c0) (c0 :: free))
      by (apply random_cell_In; discriminate).
    rewrite <- Hfree in Hin at 3. apply free_cell_freeCells in Hin.
    split.
    + intros _. eexists. split; [reflexivity |].
      split; [exact Hin |]. destruct Hin as (_ & Hs & Hobs). now split.
    + intros Hnone. exfalso. exact (Hnone _ Hin).
Qed.

(** A 2 x 1 board that the snake fills has no room for food; a fresh
    10 x 10 board has. *)
Lemma placeFood_picks_free_cell_witness :
  (exists f,
      Toroidal.food (Toroidal.placeFood fresh10 7) = Some f /\
      free_cell fresh10 f /\
      ~ In f (Toroidal.snake fresh10) /\
      ~ In f (Toroidal.obstacles fresh10)) /\
  Toroidal.food
    (Toroidal.placeFood
       (Toroidal.mkGame 2 1 0 [pt 1 0; pt 0 0] (pt 1 0) (pt 1 0)
                        (Some (pt 0 0)) 0 false 0 []) 7) = None.
Proof.
  split.
  - apply (proj1 (proj2 (placeFood_picks_free_cell fresh10 7%nat))).
    exists (pt 0 0). unfold free_cell, in_grid. vm_compute.
    repeat split; try discriminate.
    + intros [H | [H | [H | []]]]; discriminate.
    + intros [].
  - apply (proj2 (proj2 (placeFood_picks_free_cell _ 7%nat))).
    intros c [[Hx Hy] [Hs _]]. apply Hs. cbn in *.
    destruct c as [cx cy]; cbn in *.
    assert (cy = 0) as -> by lia.
    assert (cx = 0 \/ cx = 1) as [-> | ->] by lia; [right; left | left];
      reflexivity.
Defined.

(** ** The wrap *)

(** C7.  The wrap of the toroidal [step] is the floored modulo: on a
    positive grid it sends every integer, negative ones included, into
    [[0, n)], so the candidate head is a cell of the grid, and no step ever
    reports a wall.  On a 24 x 24 grid a head at (23, y) moving by (1, 0) has
    the candidate (0, y); unless that cell holds an obstacle or a segment,
    the step returns [died = false] and (0, y) is the new head. *)
Theorem step_wraps :
  (forall a n : Z, 0 < n -> 0 <= wrap a n < n /\ wrap a n = a mod n) /\
  (forall (g : Toroidal.Game) (head : Point),
      grid_ok g ->
      in_grid (Toroidal.cols g) (Toroidal.rows g) (candidate g head)) /\
  (forall (g : Toroidal.Game) (r : nat) (res : StepResult)
          (g' : Toroidal.Game),
      grid_ok g ->
      Toroidal.step g r = (Returns res, g') -> reason res <> Some wall) /\
  (forall (g : Toroidal.Game) (r : nat) (head : Point) (rest : list Point),
      Toroidal.cols g = 24 -> Toroidal.rows g = 24 ->
      Toroidal.over g = false ->
      Toroidal.snake g = head :: rest ->
      x head = 23 -> 0 <= y head < 24 ->
      Toroidal.nextDirection g = pt 1 0 ->
      candidate g head = pt 0 (y head) /\
      (~ In (pt 0 (y head)) (Toroidal.obstacles g) ->
       ~ In (pt 0 (y head)) (Toroidal.snake g) ->
       exists res g',
         Toroidal.step g r = (Returns res, g') /\
         died res = false /\ reason res = None /\
         hd_error (Toroidal.snake g') = Some (pt 0 (y head)))).
Proof.
  split; [| split; [| split]].
  - intros a n Hn. split; [now apply wrap_range | now apply wrap_mod].
  - intros g head [Hc Hr]. unfold in_grid, candidate, Toroidal.newHead.
    cbn [x y Toroidal.cols Toroidal.rows Toroidal.direction
         Toroidal.set_direction].
    split; now apply wrap_range.
  - intros g r res g' _ Hstep. destruct (Toroidal.over g) eqn:Ho.
    + rewrite (step_when_over g r Ho) in Hstep.
      injection Hstep as <- _. discriminate.
    + destruct (Toroidal.snake g) as [| head rest] eqn:Hs.
      * rewrite (step_no_head g r Ho Hs) in Hstep. discriminate.
      * rewrite (step_running g r head rest Ho Hs) in Hstep. cbn zeta in Hstep.
        destruct (has (Toroidal.obstacles g) _);
          [injection Hstep as <- _; discriminate |].
        destruct (has (Toroidal.snake g) _);
          injection Hstep as <- _; discriminate.
  - intros g r head rest Hc Hr Ho Hs Hx Hy Hd.
    assert (Hcand : candidate g head = pt 0 (y head)).
    { unfold candidate, Toroidal.newHead, pt.
      cbn [x y Toroidal.cols Toroidal.rows Toroidal.direction
           Toroidal.set_direction].
      rewrite Hc, Hr, Hd, Hx. cbn [x y pt]. f_equal.
      rewrite wrap_mod by lia. rewrite Z.add_0_r. apply Z.mod_small. lia. }
    split; [exact Hcand |]. intros Hobs Hself.
    rewrite (step_running g r head rest Ho Hs). cbn zeta. rewrite Hcand.
    apply has_false in Hobs. apply has_false in Hself.
    rewrite Hobs, Hself. do 2 eexists. split; [reflexivity |].
    split; [reflexivity |]. split; [reflexivity |].
    match goal with |- context [Toroidal.eat ?s ?c r] =>
      pose proof (eat_effect s c r) as E; cbn zeta in E;
      destruct E as (_ & _ & Es & _)
    end.
    cbn [Toroidal.snake Toroidal.set_snake] in Es.
    unfold Toroidal.grow. destruct (0 <? _).
    + cbn [Toroidal.snake Toroidal.set_growAmount]. now rewrite Es.
    + cbn [Toroidal.snake Toroidal.set_snake]. rewrite Es, Hs. reflexivity.
Qed.

Lemma step_wraps_witness :
  (0 <= wrap (-1) 24 < 24 /\ wrap (-1) 24 = (-1) mod 24) /\
  candidate edge_game (pt 23 7) = pt 0 7 /\
  exists res g',
    Toroidal.step edge_game 0 = (Returns res, g') /\
    died res = false /\ reason res = None /\
    hd_error (Toroidal.snake g') = Some (pt 0 7).
Proof.
  destruct step_wraps as (W & _ & _ & E).
  split; [apply (W (-1) 24); lia |].
  destruct (E edge_game 0%nat (pt 23 7) [pt 22 7; pt 21 7]) as [C S];
    try reflexivity.
  - cbn. lia.
  - split; [exact C |]. apply S.
    + intros [].
    + intros [H | [H | [H | []]]]; discriminate.
Defined.

(** ** Reset *)

Section ResetFacts.

Import Toroidal.

Lemma generateObstacles_only_obstacles (count : Z) (g : Game) (rs : Rng) :
  fst (generateObstacles count g rs)
  = set_obstacles (obstacles (fst (generateObstacles count g rs))) g.
Proof.
  unfold generateObstacles. destruct (count <=? 0); [reflexivity |].
  cbn [snake cols rows set_obstacles].
  destruct (pickObstacles _ _ rs []) as [obs rs']. reflexivity.
Qed.

(** The state after [reset], field by field: only the obstacles and the
    food depend on the random choices. *)
Lemma reset_shape (g : Game) (rs : Rng) :
  reset g rs
  = mkGame (cols g) (rows g) (obstacleCount g)
           [ pt (cols g / 2) (rows g / 2);
             pt (cols g / 2 - 1) (rows g / 2);
             pt (cols g / 2 - 2) (rows g / 2) ]
           (pt 1 0) (pt 1 0) (food (reset g rs)) 0 false 0
           (obstacles (reset g rs)).
Proof.
  unfold reset.
  match goal with |- context [generateObstacles ?n ?s rs] =>
    pose proof (generateObstacles_only_obstacles n s rs) as E;
    destruct (generateObstacles n s rs) as [g1 rs1]
  end.
  cbn [fst] in E. rewrite placeFood_only_food. rewrite E. reflexivity.
Qed.

Lemma new_Game_is_reset (c r o : option Z) (rs : Rng) :
  exists g0, new_Game c r o rs = reset g0 rs /\
             cols g0 = match c with Some n => n | None => 24 end /\
             rows g0 = match r with Some n => n | None => 24 end.
Proof. unfold new_Game. eexists. split; [reflexivity |]. now split. Qed.

End ResetFacts.

(** C8.  After [reset], whatever the state and the random choices were, the
    snake has the three segments (mx, my), (mx - 1, my), (mx - 2, my) where
    mx and my are the floors of cols / 2 and rows / 2: it lies on one row
    through the middle of the grid, the head first and rightmost.  Direction
    and queued direction are (1, 0), the score is 0, [over] is false and the
    growth counter is 0.  On a 10 x 10 grid the snake is
    [(5,5), (4,5), (3,5)]. *)
Theorem reset_canonical (g : Toroidal.Game) (rs : Rng) :
  let g' := Toroidal.reset g rs in
  let mx := Toroidal.cols g / 2 in
  let my := Toroidal.rows g / 2 in
  (2 * mx <= Toroidal.cols g <= 2 * mx + 1 /\
   2 * my <= Toroidal.rows g <= 2 * my + 1) /\
  Toroidal.snake g' = [pt mx my; pt (mx - 1) my; pt (mx - 2) my] /\
  Toroidal.direction g' = pt 1 0 /\
  Toroidal.nextDirection g' = pt 1 0 /\
  Toroidal.score g' = 0 /\
  Toroidal.over g' = false /\
  Toroidal.growAmount g' = 0 /\
  (Toroidal.cols g = 10 -> Toroidal.rows g = 10 ->
   Toroidal.snake g' = [pt 5 5; pt 4 5; pt 3 5]).
Proof.
  cbv zeta. split.
  - pose proof (Z.div_mod (Toroidal.cols g) 2).
    pose proof (Z.mod_pos_bound (Toroidal.cols g) 2).
    pose proof (Z.div_mod (Toroidal.rows g) 2).
    pose proof (Z.mod_pos_bound (Toroidal.rows g) 2). lia.
  - rewrite (reset_shape g rs). cbn.
    repeat (split; [reflexivity |]).
    intros -> ->. reflexivity.
Qed.

Lemma reset_canonical_witness :
  Toroidal.snake
    (Toroidal.reset (snd (Toroidal.step loop_game 0)) (fun k => (3 * k)%nat))
  = [pt 3 3; pt 2 3; pt 1 3] /\
  Toroidal.snake (Toroidal.reset fresh10 (fun k => (3 * k)%nat))
  = [pt 5 5; pt 4 5; pt 3 5].
Proof.
  split.
  - apply (reset_canonical (snd (Toroidal.step loop_game 0))
                           (fun k => (3 * k)%nat)).
  - apply (reset_canonical fresh10 (fun k => (3 * k)%nat)); reflexivity.
Defined.

(** The constructed game of the scenario: 10 x 10, no obstacles. *)
Example fresh10_state :
  Toroidal.snake fresh10 = [pt 5 5; pt 4 5; pt 3 5] /\
  Toroidal.direction fresh10 = pt 1 0 /\
  Toroidal.score fresh10 = 0 /\
  Toroidal.over fresh10 = false /\
  Toroidal.obstacles fresh10 = [].
Proof. vm_compute. repeat split. Qed.

(** ** Score and growth counter along a step *)

(** The cases of [step g r]: finished game, no head, obstacle hit, self
    hit, move. *)
Ltac step_cases g r :=
  let Ho := fresh "Ho" in
  let Hs := fresh "Hs" in
  let head := fresh "head" in
  let rest := fresh "rest" in
  destruct (Toroidal.over g) eqn:Ho;
  [ rewrite (step_when_over g r Ho)
  | destruct (Toroidal.snake g) as [| head rest] eqn:Hs;
    [ rewrite (step_no_head g r Ho Hs)
    | rewrite (step_running g r head rest Ho Hs); cbn zeta;
      destruct (has (Toroidal.obstacles g) (candidate g head)) eqn:?Hobs;
      [ | destruct (has (Toroidal.snake g) (candidate g head)) eqn:?Hself ]
    ]
  ].

(** The facts of [eat_effect] for the food check inside the goal. *)
Ltac eat_facts r E :=
  match goal with
  | |- context [Toroidal.eat ?s ?c r] =>
      pose proof (eat_effect s c r) as E; cbn zeta in E;
      cbn [Toroidal.snake Toroidal.growAmount Toroidal.score
           Toroidal.obstacles Toroidal.cols Toroidal.rows Toroidal.over
           Toroidal.set_snake Toroidal.set_direction] in E
  end.

Lemma step_score (g : Toroidal.Game) (r : nat) :
  Toroidal.score (snd (Toroidal.step g r))
  = Toroidal.score g + meal (fst (Toroidal.step g r)).
Proof.
  step_cases g r; cbn [fst snd meal ate Toroidal.score Toroidal.set_over
                       Toroidal.set_direction]; try lia.
  eat_facts r E. destruct E as (Esc & _).
  destruct (grow_effect (snd (Toroidal.eat
      (Toroidal.set_snake (candidate g head :: Toroidal.snake g)
         (Toroidal.set_direction (Toroidal.nextDirection g) g))
      (candidate g head) r))) as (G & _).
  rewrite G, Esc. now destruct (fst (Toroidal.eat _ _ r)).
Qed.

Lemma step_growAmount (g : Toroidal.Game) (r : nat) :
  Toroidal.growAmount g = 0 ->
  Toroidal.growAmount (snd (Toroidal.step g r)) = 0.
Proof.
  intros Hz.
  step_cases g r; cbn [snd Toroidal.growAmount Toroidal.set_over
                       Toroidal.set_direction]; try exact Hz.
  eat_facts r E. destruct E as (_ & Eg & _). rewrite Hz in Eg.
  unfold Toroidal.grow. rewrite Eg.
  destruct (fst (Toroidal.eat _ _ r)); cbn [Z.b2z].
  - change (0 <? 0 + 1) with true.
    cbn [Toroidal.growAmount Toroidal.set_growAmount]. reflexivity.
  - change (0 <? 0 + 0) with false.
    cbn [Toroidal.growAmount Toroidal.set_snake]. rewrite Eg. reflexivity.
Qed.

Lemma step_grid (g : Toroidal.Game) (r : nat) :
  Toroidal.cols (snd (Toroidal.step g r)) = Toroidal.cols g /\
  Toroidal.rows (snd (Toroidal.step g r)) = Toroidal.rows g.
Proof.
  step_cases g r; cbn [snd Toroidal.cols Toroidal.rows Toroidal.set_over
                       Toroidal.set_direction]; try (split; reflexivity).
  eat_facts r E. destruct E as (_ & _ & _ & _ & Ec & Er & _).
  destruct (grow_effect (snd (Toroidal.eat
      (Toroidal.set_snake (candidate g head :: Toroidal.snake g)
         (Toroidal.set_direction (Toroidal.nextDirection g) g))
      (candidate g head) r))) as (_ & _ & Gc & Gr & _).
  rewrite Gc, Gr. now split.
Qed.

Lemma perform_grid (g : Toroidal.Game) (c : Toroidal.Call) :
  grid_ok g -> grid_ok (Toroidal.perform g c).
Proof.
  unfold grid_ok. intros Hg. destruct c as [rs | dir | r]; cbn.
  - now rewrite (reset_shape g rs).
  - rewrite setDirection_cases. now destruct (accepted g dir).
  - destruct (step_grid g r) as [-> ->]. exact Hg.
Qed.

Lemma run_snoc (calls : list Toroidal.Call) (c : Toroidal.Call)
      (g : Toroidal.Game) :
  Toroidal.run (calls ++ [c]) g = Toroidal.perform (Toroidal.run calls g) c.
Proof. unfold Toroidal.run. now rewrite fold_left_app. Qed.

Lemma run_cons (calls : list Toroidal.Call) (c : Toroidal.Call)
      (g : Toroidal.Game) :
  Toroidal.run (c :: calls) g = Toroidal.run calls (Toroidal.perform g c).
Proof. reflexivity. Qed.

Lemma run_app (calls more : list Toroidal.Call) (g : Toroidal.Game) :
  Toroidal.run (calls ++ more) g = Toroidal.run more (Toroidal.run calls g).
Proof. unfold Toroidal.run. apply fold_left_app. Qed.

Lemma run_grid (calls : list Toroidal.Call) (g : Toroidal.Game) :
  grid_ok g -> grid_ok (Toroidal.run calls g).
Proof.
  revert g. induction calls as [| c calls IH]; intros g Hg; [exact Hg |].
  rewrite run_cons. apply IH. now apply perform_grid.
Qed.

Lemma meal_nonneg (c : Completion StepResult) : 0 <= meal c <= 1.
Proof. destruct c as [res |]; cbn; [destruct (ate res) |]; lia. Qed.

Lemma run_score (calls : list Toroidal.Call) (g : Toroidal.Game) :
  no_reset calls ->
  Toroidal.score (Toroidal.run calls g) = Toroidal.score g + meals calls g /\
  0 <= meals calls g.
Proof.
  unfold no_reset. revert g.
  induction calls as [| c calls IH]; intros g Hn; [cbn; lia |].
  cbn [existsb] in Hn. apply orb_false_iff in Hn. destruct Hn as [Hc Hn].
  rewrite run_cons. cbn [meals].
  destruct (IH (Toroidal.perform g c) Hn) as [E Hm]. rewrite E.
  assert (Hhead :
    Toroidal.score (Toroidal.perform g c)
    = Toroidal.score g
      + match c with
        | Toroidal.CallStep r => meal (fst (Toroidal.step g r))
        | _ => 0
        end
    /\ 0 <= match c with
            | Toroidal.CallStep r => meal (fst (Toroidal.step g r))
            | _ => 0
            end).
  { destruct c as [rs | dir | r]; [discriminate | |].
    - cbn [Toroidal.perform]. rewrite setDirection_cases.
      destruct (accepted g dir); cbn; lia.
    - cbn [Toroidal.perform]. rewrite step_score.
      pose proof (meal_nonneg (fst (Toroidal.step g r))). lia. }
  lia.
Qed.

(** C9.  A call of [step] adds exactly 1 to the score when it returns
    [ate = true] and leaves the score as it was otherwise; [setDirection]
    never touches it.  So along any sequence of [step] and [setDirection]
    calls the score never goes down: after further calls it is the score so
    far plus the number of steps that reported a meal. *)
Theorem score_monotone :
  (forall (g : Toroidal.Game) (r : nat) (c : Completion StepResult)
          (g' : Toroidal.Game),
      grid_ok g ->
      Toroidal.step g r = (c, g') ->
      Toroidal.score g' = Toroidal.score g + meal c /\
      (forall res, c = Returns res -> ate res = true ->
                   Toroidal.score g' = Toroidal.score g + 1) /\
      (forall res, c = Returns res -> ate res = false ->
                   Toroidal.score g' = Toroidal.score g)) /\
  (forall (g : Toroidal.Game) (dir : Point),
      Toroidal.score (Toroidal.setDirection g dir) = Toroidal.score g) /\
  (forall (calls more : list Toroidal.Call) (g : Toroidal.Game),
      grid_ok g ->
      no_reset more ->
      Toroidal.score (Toroidal.run calls g)
      <= Toroidal.score (Toroidal.run (calls ++ more) g) /\
      Toroidal.score (Toroidal.run (calls ++ more) g)
      = Toroidal.score (Toroidal.run calls g)
        + meals more (Toroidal.run calls g)).
Proof.
  split; [| split].
  - intros g r c g' _ Hstep. pose proof (step_score g r) as E.
    rewrite Hstep in E. cbn [fst snd] in E. split; [exact E |].
    split; intros res -> Hate; rewrite E; cbn; rewrite Hate; lia.
  - intros g dir. rewrite setDirection_cases. now destruct (accepted g dir).
  - intros calls more g _ Hn. rewrite run_app.
    destruct (run_score more (Toroidal.run calls g) Hn) as [E Hm]. lia.
Qed.

(** A meal on a fresh 10 x 10 game: the food is put in front of the head,
    then the game steps three times. *)
Lemma score_monotone_witness :
  let g := Toroidal.set_food (Some (pt 6 5)) fresh10 in
  let calls := [Toroidal.CallStep 11; Toroidal.CallSetDirection (pt 0 1);
                Toroidal.CallStep 12; Toroidal.CallStep 13] in
  Toroidal.score (snd (Toroidal.step g 11)) = Toroidal.score g + 1 /\
  Toroidal.score (Toroidal.run [] g)
  <= Toroidal.score (Toroidal.run ([] ++ calls) g).
Proof.
  cbv zeta. destruct score_monotone as (One & _ & Many).
  assert (G : grid_ok (Toroidal.set_food (Some (pt 6 5)) fresh10))
    by (split; reflexivity).
  split.
  - refine (proj1 (proj2 (One _ 11%nat _ _ G eq_refl)) _ _ _).
    + vm_compute. reflexivity.
    + reflexivity.
  - apply Many; [exact G | reflexivity].
Defined.

(** C10.  The growth counter is 0 after [reset] and after the
    constructor; [setDirection] does not touch it; a step started with the
    counter at 0 ends with the counter at 0, whether it returns or throws.
    So the counter is 0 after every call of any sequence that starts from a
    reset.  A step that eats puts the token in and takes it out again: the
    counter is back at 0 and the snake has grown in that same step. *)
Theorem growAmount_stays_zero :
  (forall (g : Toroidal.Game) (rs : Rng),
      Toroidal.growAmount (Toroidal.reset g rs) = 0) /\
  (forall (c r o : option Z) (rs : Rng),
      Toroidal.growAmount (Toroidal.new_Game c r o rs) = 0) /\
  (forall (g : Toroidal.Game) (dir : Point),
      Toroidal.growAmount (Toroidal.setDirection g dir)
      = Toroidal.growAmount g) /\
  (forall (g : Toroidal.Game) (r : nat),
      grid_ok g ->
      Toroidal.growAmount g = 0 ->
      Toroidal.growAmount (snd (Toroidal.step g r)) = 0) /\
  (forall (calls : list Toroidal.Call) (g : Toroidal.Game) (rs : Rng),
      grid_ok g ->
      Toroidal.growAmount (Toroidal.run calls (Toroidal.reset g rs)) = 0) /\
  (forall (g : Toroidal.Game) (r : nat) (res : StepResult)
          (g' : Toroidal.Game),
      grid_ok g ->
      Toroidal.growAmount g = 0 ->
      Toroidal.step g r = (Returns res, g') ->
      ate res = true ->
      Toroidal.growAmount g' = 0 /\
      length (Toroidal.snake g') = S (length (Toroidal.snake g))).
Proof.
  assert (R : forall g rs, Toroidal.growAmount (Toroidal.reset g rs) = 0)
    by (intros g rs; now rewrite reset_shape).
  assert (D : forall g dir,
             Toroidal.growAmount (Toroidal.setDirection g dir)
             = Toroidal.growAmount g).
  { intros g dir. rewrite setDirection_cases. now destruct (accepted g dir). }
  split; [exact R |]. split; [| split; [exact D | split; [| split]]].
  - intros c r o rs. destruct (new_Game_is_reset c r o rs) as [g0 [-> _]].
    apply R.
  - intros g r _. apply step_growAmount.
  - intros calls g rs _. generalize (R g rs).
    generalize (Toroidal.reset g rs). clear g rs.
    induction calls as [| c calls IH]; intros s Hz; [exact Hz |].
    rewrite run_cons. apply IH. destruct c as [rs | dir | r]; cbn.
    + apply R.
    + now rewrite D.
    + now apply step_growAmount.
  - intros g r res g' _ Hz Hstep Hate. split.
    + pose proof (step_growAmount g r Hz) as E. now rewrite Hstep in E.
    + revert Hstep. step_cases g r; intros Hstep;
        try discriminate Hstep;
        injection Hstep as Hres Hg'; subst res g'; try discriminate Hate.
      cbn [ate] in Hate. eat_facts r E. destruct E as (_ & Eg & Es & _).
      rewrite Hz, Hate in Eg. unfold Toroidal.grow. rewrite Eg.
      change (0 <? 0 + Z.b2z true) with true.
      cbn [Toroidal.snake Toroidal.set_growAmount]. rewrite Es, Hs.
      reflexivity.
Qed.

Lemma growAmount_stays_zero_witness :
  let g := Toroidal.set_food (Some (pt 6 5)) fresh10 in
  Toroidal.growAmount (snd (Toroidal.step g 11)) = 0 /\
  Toroidal.growAmount
    (Toroidal.run [Toroidal.CallStep 1; Toroidal.CallSetDirection (pt 0 1);
                   Toroidal.CallStep 2]
                  (Toroidal.reset fresh10 (fun k => k))) = 0 /\
  length (Toroidal.snake (snd (Toroidal.step g 11))) = 4%nat.
Proof.
  cbv zeta.
  destruct growAmount_stays_zero as (_ & _ & _ & One & Many & Meal).
  assert (G : grid_ok (Toroidal.set_food (Some (pt 6 5)) fresh10))
    by (split; reflexivity).
  split; [apply One; [exact G | reflexivity] |].
  split; [apply Many; split; reflexivity |].
  refine (proj2 (Meal _ 11%nat _ _ G eq_refl _ _)).
  - vm_compute. reflexivity.
  - reflexivity.
Defined.

(** ** The engine invariant *)

Lemma In_spliceOut (idx : nat) (free : list Point) (p : Point) :
  In p (spliceOut idx free) -> In p free.
Proof.
  unfold spliceOut. intros H. apply in_app_or in H.
  rewrite <- (firstn_skipn idx free). apply in_or_app.
  destruct H as [H | H]; [now left | right].
  clear - H. revert idx H.
  induction free as [| a free IH]; intros idx H.
  - now rewrite skipn_nil in H.
  - destruct idx as [| idx].
    + cbn in H |- *. now right.
    + cbn [skipn] in H |- *. now apply IH.
Qed.

Lemma pickObstacles_sub (count : nat) (free : list Point) (rs : Rng)
      (acc : list Point) (p : Point) :
  In p (fst (Toroidal.pickObstacles count free rs acc)) ->
  In p acc \/ In p free.
Proof.
  revert free rs acc.
  induction count as [| count IH]; intros free rs acc H; [now left |].
  destruct free as [| c free]; [now left |].
  cbn [Toroidal.pickObstacles] in H. apply IH in H.
  destruct H as [H | H].
  - apply in_app_or in H. destruct H as [H | [<- | []]]; [now left |].
    right. apply nth_In. apply randomIndex_lt. cbn. lia.
  - right. now apply In_spliceOut in H.
Qed.

Lemma generateObstacles_free (count : Z) (g : Toroidal.Game) (rs : Rng)
      (p : Point) :
  In p (Toroidal.obstacles (fst (Toroidal.generateObstacles count g rs))) ->
  in_grid (Toroidal.cols g) (Toroidal.rows g) p /\
  ~ In p (Toroidal.snake g).
Proof.
  unfold Toroidal.generateObstacles.
  destruct (count <=? 0); [intros [] |].
  cbn [Toroidal.snake Toroidal.cols Toroidal.rows Toroidal.set_obstacles].
  destruct (Toroidal.pickObstacles _ _ rs []) as [obs rs'] eqn:E.
  cbn [fst Toroidal.obstacles]. intros H.
  assert (H' : In p (fst (Toroidal.pickObstacles (Z.to_nat count)
             (freeCells (Toroidal.cols g) (Toroidal.rows g)
                        (Toroidal.snake g)) rs [])))
    by (now rewrite E).
  apply pickObstacles_sub in H'. destruct H' as [[] | H'].
  now apply In_freeCells in H'.
Qed.

Lemma reset_obstacles_free (g : Toroidal.Game) (rs : Rng) (p : Point) :
  In p (Toroidal.obstacles (Toroidal.reset g rs)) ->
  ~ In p (Toroidal.snake (Toroidal.reset g rs)).
Proof.
  rewrite (reset_shape g rs) at 2. cbn [Toroidal.snake].
  unfold Toroidal.reset.
  match goal with |- context [Toroidal.generateObstacles ?n ?s rs] =>
    pose proof (generateObstacles_free n s rs p) as F;
    destruct (Toroidal.generateObstacles n s rs) as [g1 rs1]
  end.
  cbn [fst Toroidal.snake Toroidal.set_snake Toroidal.set_direction
       Toroidal.set_nextDirection Toroidal.set_score Toroidal.set_over
       Toroidal.set_growAmount] in F.
  rewrite placeFood_only_food. cbn [Toroidal.obstacles Toroidal.set_food].
  intros H. now apply F.
Qed.

Lemma reset_invariant (g : Toroidal.Game) (rs : Rng) :
  grid_ok g -> engine_invariant (Toroidal.reset g rs).
Proof.
  intros Hg. unfold engine_invariant.
  split; [exact (perform_grid g (Toroidal.CallReset rs) Hg) |].
  split; [rewrite reset_shape; discriminate |].
  split; [now rewrite reset_shape |].
  intros p Hs Hobs. now apply (reset_obstacles_free g rs p).
Qed.

Lemma setDirection_invariant (g : Toroidal.Game) (dir : Point) :
  engine_invariant g -> engine_invariant (Toroidal.setDirection g dir).
Proof.
  rewrite setDirection_cases. now destruct (accepted g dir).
Qed.

Lemma step_invariant (g : Toroidal.Game) (r : nat) :
  engine_invariant g -> engine_invariant (snd (Toroidal.step g r)).
Proof.
  intros (Hg & Hne & Hz & Hclear). unfold engine_invariant.
  split; [exact (perform_grid g (Toroidal.CallStep r) Hg) |].
  split; [| split; [now apply step_growAmount |]].
  - step_cases g r; cbn [snd Toroidal.snake Toroidal.set_over
                         Toroidal.set_direction]; try congruence.
    eat_facts r E. destruct E as (_ & _ & Es & _).
    unfold Toroidal.grow. destruct (0 <? _).
    + cbn [Toroidal.snake Toroidal.set_growAmount]. rewrite Es. discriminate.
    + cbn [Toroidal.snake Toroidal.set_snake]. rewrite Es, Hs. discriminate.
  - unfold clear_of_obstacles in *.
    step_cases g r; cbn [snd Toroidal.snake Toroidal.obstacles
                         Toroidal.set_over Toroidal.set_direction];
      try exact Hclear; try (rewrite Hs; exact Hclear).
    eat_facts r E. destruct E as (_ & _ & Es & Eo & _).
    destruct (grow_effect (snd (Toroidal.eat
        (Toroidal.set_snake (candidate g head :: Toroidal.snake g)
           (Toroidal.set_direction (Toroidal.nextDirection g) g))
        (candidate g head) r))) as (_ & Go & _).
    rewrite Go, Eo. intros p Hp.
    assert (Hp' : In p (candidate g head :: Toroidal.snake g)).
    { unfold Toroidal.grow in Hp. destruct (0 <? _).
      - cbn [Toroidal.snake Toroidal.set_growAmount] in Hp.
        now rewrite Es in Hp.
      - cbn [Toroidal.snake Toroidal.set_snake] in Hp. rewrite Es in Hp.
        now apply In_removelast. }
    destruct Hp' as [<- | Hp'].
    + now apply has_false.
    + apply Hclear. now rewrite <- Hs.
Qed.

(** Every state the engine reaches from a reset on a positive grid has a
    positive grid, a snake with a head, no pending growth and no segment on
    an obstacle. *)
Lemma run_keeps_engine_invariant (calls : list Toroidal.Call)
      (g : Toroidal.Game) :
  engine_invariant g -> engine_invariant (Toroidal.run calls g).
Proof.
  revert g. induction calls as [| c calls IH]; intros g Hinv; [exact Hinv |].
  rewrite run_cons. apply IH. destruct c as [rs | dir | r]; cbn.
  - apply reset_invariant. now destruct Hinv.
  - now apply setDirection_invariant.
  - now apply step_invariant.
Qed.

Lemma new_Game_invariant (c r o : option Z) (rs : Rng) :
  0 < match c with Some n => n | None => 24 end ->
  0 < match r with Some n => n | None => 24 end ->
  engine_invariant (Toroidal.new_Game c r o rs).
Proof.
  intros Hc Hr. destruct (new_Game_is_reset c r o rs) as [g0 [-> [Ec Er]]].
  apply reset_invariant. unfold grid_ok. now rewrite Ec, Er.
Qed.

(** ** The scenarios of the specification, run on the model *)

(** A fresh 10 x 10 game, one step, no food in the way: the head moves to
    (6,5) and the snake keeps its length. *)
Example scenario_plain_step :
  let g := Toroidal.set_food (Some (pt 0 0)) fresh10 in
  fst (Toroidal.step g 0) = Returns (mkResult false false None) /\
  Toroidal.snake (snd (Toroidal.step g 0)) = [pt 6 5; pt 5 5; pt 4 5].
Proof. vm_compute. split; reflexivity. Qed.

(** The same game with the food in front of the head: a meal, score 1,
    length 4, the growth counter back at 0. *)
Example scenario_meal :
  let g := Toroidal.set_food (Some (pt 6 5)) fresh10 in
  fst (Toroidal.step g 0) = Returns (mkResult true false None) /\
  Toroidal.snake (snd (Toroidal.step g 0))
  = [pt 6 5; pt 5 5; pt 4 5; pt 3 5] /\
  Toroidal.score (snd (Toroidal.step g 0)) = 1 /\
  Toroidal.growAmount (snd (Toroidal.step g 0)) = 0.
Proof. vm_compute. repeat split; reflexivity. Qed.

(** The bounded engine at the left wall. *)
Example scenario_wall :
  Bounded.step left_edge_game 0
  = (Returns (mkResult false true (Some wall)),
     Bounded.set_over true
       (Bounded.set_direction (pt (-1) 0) left_edge_game)).
Proof. reflexivity. Qed.

(** * Further properties of the engine *)

(** ** The free cells and the obstacles *)

Lemma NoDup_upto (n : Z) : NoDup (upto n).
Proof.
  unfold upto. apply NoDup_map_NoDup_ForallPairs; [| apply seq_NoDup].
  intros a b _ _ H. lia.
Qed.

Lemma NoDup_flat_map_keyed {A B : Type} (f : A -> list B) (key : B -> A)
      (l : list A) :
  NoDup l ->
  (forall a b, In b (f a) -> key b = a) ->
  (forall a, NoDup (f a)) ->
  NoDup (flat_map f l).
Proof.
  intros Hl Hkey Hf. induction Hl as [| a l Ha Hl IH]; [constructor |].
  cbn [flat_map]. apply NoDup_app; [apply Hf | exact IH |].
  intros b Hb Hb'. apply in_flat_map in Hb'. destruct Hb' as [a' [Ha' Hb']].
  apply Hkey in Hb. apply Hkey in Hb'. congruence.
Qed.

Lemma NoDup_freeCells (cols rows : Z) (occupied : list Point) :
  NoDup (freeCells cols rows occupied).
Proof.
  unfold freeCells.
  apply (NoDup_flat_map_keyed _ x); [apply NoDup_upto | |].
  - intros cx c Hc. apply in_flat_map in Hc. destruct Hc as [cy [_ Hc]].
    destruct (negb _); [destruct Hc as [<- | []]; reflexivity | destruct Hc].
  - intros cx. apply (NoDup_flat_map_keyed _ y); [apply NoDup_upto | |].
    + intros cy c Hc.
      destruct (negb _); [destruct Hc as [<- | []]; reflexivity | destruct Hc].
    + intros cy. destruct (negb _); [| constructor].
      constructor; [intros [] | constructor].
Qed.

(** The array is the part before [idx], its element at [idx] and the part
    after it. *)
Lemma splice_decompose (idx : nat) (free : list Point) (d : Point) :
  (idx < length free)%nat ->
  free = firstn idx free ++ nth idx free d :: skipn (S idx) free.
Proof.
  revert idx. induction free as [| a free IH]; intros idx Hlt.
  - cbn in Hlt. lia.
  - destruct idx as [| idx]; [reflexivity |].
    cbn [firstn nth skipn app]. f_equal. apply IH. cbn in Hlt. lia.
Qed.

Lemma length_spliceOut (idx : nat) (free : list Point) :
  (idx < length free)%nat ->
  S (length (spliceOut idx free)) = length free.
Proof.
  intros Hlt. destruct free as [| c free']; [cbn in Hlt; lia |].
  rewrite (splice_decompose idx (c :: free') c Hlt) at 2.
  unfold spliceOut. rewrite !length_app. cbn [length]. lia.
Qed.

Lemma NoDup_spliceOut (idx : nat) (free : list Point) (d : Point) :
  (idx < length free)%nat ->
  NoDup free ->
  NoDup (spliceOut idx free) /\ ~ In (nth idx free d) (spliceOut idx free).
Proof.
  intros Hlt Hnd. rewrite (splice_decompose idx free d Hlt) in Hnd.
  apply NoDup_remove in Hnd. exact Hnd.
Qed.

Lemma pickObstacles_NoDup (count : nat) (free : list Point) (rs : Rng)
      (acc : list Point) :
  NoDup acc -> NoDup free -> (forall p, In p acc -> ~ In p free) ->
  NoDup (fst (Toroidal.pickObstacles count free rs acc)).
Proof.
  revert free rs acc.
  induction count as [| count IH]; intros free rs acc Ha Hf Hd; [exact Ha |].
  destruct free as [| c free']; [exact Ha |].
  cbn [Toroidal.pickObstacles].
  set (free := c :: free') in *.
  set (idx := randomIndex (rs 0%nat) (length free)).
  assert (Hlt : (idx < length free)%nat)
    by (apply randomIndex_lt; cbn; lia).
  destruct (NoDup_spliceOut idx free c Hlt Hf) as [Hs Hout].
  apply IH; [| exact Hs |].
  - apply NoDup_app; [exact Ha | constructor; [intros [] | constructor] |].
    intros p Hp [E | []]. subst p. apply (Hd _ Hp). now apply nth_In.
  - intros p Hp Hp'. apply in_app_or in Hp. destruct Hp as [Hp | [<- | []]].
    + apply (Hd p Hp). now apply In_spliceOut in Hp'.
    + contradiction.
Qed.

Lemma pickObstacles_length (count : nat) (free : list Point) (rs : Rng)
      (acc : list Point) :
  length (fst (Toroidal.pickObstacles count free rs acc))
  = (length acc + Nat.min count (length free))%nat.
Proof.
  revert free rs acc.
  induction count as [| count IH]; intros free rs acc; [cbn; lia |].
  destruct free as [| c free']; [cbn; lia |].
  cbn [Toroidal.pickObstacles]. rewrite IH, length_app.
  pose proof (length_spliceOut
                (randomIndex (rs 0%nat) (length (c :: free'))) (c :: free'))
    as L.
  assert (Hlt : (randomIndex (rs 0%nat) (length (c :: free'))
                 < length (c :: free'))%nat)
    by (apply randomIndex_lt; cbn; lia).
  specialize (L Hlt). cbn [length] in *. lia.
Qed.

(** The obstacles [generateObstacles] stores, as the outcome of its loop. *)
Lemma generateObstacles_obstacles (count : Z) (g : Toroidal.Game) (rs : Rng) :
  Toroidal.obstacles (fst (Toroidal.generateObstacles count g rs))
  = fst (Toroidal.pickObstacles
           (Z.to_nat count)
           (freeCells (Toroidal.cols g) (Toroidal.rows g) (Toroidal.snake g))
           rs []).
Proof.
  unfold Toroidal.generateObstacles. destruct (count <=? 0) eqn:Hc.
  - apply Z.leb_le in Hc. replace (Z.to_nat count) with 0%nat by lia.
    reflexivity.
  - cbn [Toroidal.snake Toroidal.cols Toroidal.rows Toroidal.set_obstacles].
    destruct (Toroidal.pickObstacles _ _ rs []) as [obs rs']. reflexivity.
Qed.

(** X1.  [generateObstacles] changes the obstacles only, and the obstacles
    it stores are pairwise distinct cells of the grid, none of them under a
    segment of the snake. *)
Theorem generateObstacles_places_well (count : Z) (g : Toroidal.Game)
        (rs : Rng) :
  let g' := fst (Toroidal.generateObstacles count g rs) in
  g' = Toroidal.set_obstacles (Toroidal.obstacles g') g /\
  NoDup (Toroidal.obstacles g') /\
  (forall o, In o (Toroidal.obstacles g') ->
             in_grid (Toroidal.cols g) (Toroidal.rows g) o /\
             ~ In o (Toroidal.snake g)).
Proof.
  cbv zeta. split; [apply generateObstacles_only_obstacles |]. split.
  - rewrite generateObstacles_obstacles.
    apply pickObstacles_NoDup; [constructor | apply NoDup_freeCells |].
    intros p [].
  - intros o. apply generateObstacles_free.
Qed.

Lemma generateObstacles_places_well_witness :
  in_grid 5 5 (pt 0 0) /\ ~ In (pt 0 0) (Toroidal.snake blocked_game).
Proof.
  apply (proj2 (proj2 (generateObstacles_places_well
                         1 blocked_game (fun k => (7 * k)%nat))) (pt 0 0)).
  vm_compute. left. reflexivity.
Defined.

(** X2.  [generateObstacles] stores as many obstacles as it was asked for,
    but no more than there are cells off the snake; none for a count of 0 or
    below. *)
Theorem generateObstacles_count (count : Z) (g : Toroidal.Game) (rs : Rng) :
  length (Toroidal.obstacles (fst (Toroidal.generateObstacles count g rs)))
  = Nat.min (Z.to_nat count)
            (length (freeCells (Toroidal.cols g) (Toroidal.rows g)
                               (Toroidal.snake g))) /\
  (count <= 0 ->
   Toroidal.obstacles (fst (Toroidal.generateObstacles count g rs)) = []).
Proof.
  rewrite generateObstacles_obstacles. split.
  - now rewrite pickObstacles_length.
  - intros Hc. replace (Z.to_nat count) with 0%nat by lia. reflexivity.
Qed.

Lemma generateObstacles_count_witness :
  Toroidal.obstacles
    (fst (Toroidal.generateObstacles (-3) blocked_game (fun k => k))) = [].
Proof.
  apply (proj2 (generateObstacles_count (-3) blocked_game (fun k => k))).
  lia.
Defined.

(** ** Counting the free cells *)

Lemma filter_flat_map {A B : Type} (f : B -> bool) (k : A -> list B)
      (l : list A) :
  filter f (flat_map k l) = flat_map (fun a => filter f (k a)) l.
Proof.
  induction l as [| a l IH]; [reflexivity |].
  cbn [flat_map]. now rewrite filter_app, IH.
Qed.

(** The free cells are the cells of the whole grid that pass the test. *)
Lemma freeCells_filter (cols rows : Z) (occupied : list Point) :
  freeCells cols rows occupied
  = filter (fun c => negb (has occupied c)) (freeCells cols rows []).
Proof.
  unfold freeCells. rewrite filter_flat_map.
  apply flat_map_ext. intros cx. rewrite filter_flat_map.
  apply flat_map_ext. intros cy. cbn [has existsb negb filter].
  now destruct (negb _).
Qed.

Lemma length_upto (n : Z) : length (upto n) = Z.to_nat n.
Proof. unfold upto. now rewrite length_map, length_seq. Qed.

Lemma length_whole_grid (cols rows : Z) :
  length (freeCells cols rows []) = (Z.to_nat cols * Z.to_nat rows)%nat.
Proof.
  unfold freeCells.
  rewrite (flat_map_constant_length (c := Z.to_nat rows)).
  - now rewrite length_upto.
  - intros cx _.
    rewrite (flat_map_constant_length (c := 1%nat)).
    + rewrite length_upto. lia.
    + reflexivity.
Qed.

(** Distinct occupied cells of the grid each take one cell away. *)
Lemma length_freeCells (cols rows : Z) (occupied : list Point) :
  NoDup occupied ->
  (forall p, In p occupied -> in_grid cols rows p) ->
  (length (freeCells cols rows occupied) + length occupied
   = Z.to_nat cols * Z.to_nat rows)%nat.
Proof.
  intros Hnd Hin. rewrite <- length_whole_grid.
  rewrite <- (filter_length (has occupied) (freeCells cols rows [])).
  rewrite <- freeCells_filter.
  assert (E : length (filter (has occupied) (freeCells cols rows []))
              = length occupied).
  { apply Nat.le_antisymm.
    - apply NoDup_incl_length.
      + apply NoDup_filter, NoDup_freeCells.
      + intros p Hp. apply filter_In in Hp. now apply has_In.
    - apply NoDup_incl_length; [exact Hnd |].
      intros p Hp. apply filter_In. split; [| now apply has_In].
      apply In_freeCells. split; [now apply Hin | intros []]. }
  lia.
Qed.

(** ** What reset leaves on the board *)

(** The snake [reset] lays out. *)
Lemma reset_snake (g : Toroidal.Game) (rs : Rng) :
  Toroidal.snake (Toroidal.reset g rs)
  = [ pt (Toroidal.cols g / 2) (Toroidal.rows g / 2);
      pt (Toroidal.cols g / 2 - 1) (Toroidal.rows g / 2);
      pt (Toroidal.cols g / 2 - 2) (Toroidal.rows g / 2) ].
Proof. now rewrite reset_shape. Qed.

Lemma reset_snake_NoDup (g : Toroidal.Game) (rs : Rng) :
  NoDup (Toroidal.snake (Toroidal.reset g rs)).
Proof.
  rewrite reset_snake. unfold pt.
  repeat constructor; cbn; intros H;
    repeat (destruct H as [H | H]; [injection H; lia |]); exact H.
Qed.

Lemma reset_snake_in_grid (g : Toroidal.Game) (rs : Rng) :
  4 <= Toroidal.cols g -> 1 <= Toroidal.rows g ->
  all_in_grid g (Toroidal.snake (Toroidal.reset g rs)).
Proof.
  intros Hc Hr p Hp. rewrite reset_snake in Hp. unfold in_grid.
  pose proof (Z.div_mod (Toroidal.cols g) 2).
  pose proof (Z.mod_pos_bound (Toroidal.cols g) 2).
  pose proof (Z.div_mod (Toroidal.rows g) 2).
  pose proof (Z.mod_pos_bound (Toroidal.rows g) 2).
  repeat (destruct Hp as [<- | Hp]; [cbn; lia |]). destruct Hp.
Qed.

(** The obstacles after [reset], as the outcome of the selection loop. *)
Lemma reset_obstacles (g : Toroidal.Game) (rs : Rng) :
  Toroidal.obstacles (Toroidal.reset g rs)
  = fst (Toroidal.pickObstacles
           (Z.to_nat (Toroidal.obstacleCount g))
           (freeCells (Toroidal.cols g) (Toroidal.rows g)
                      (Toroidal.snake (Toroidal.reset g rs)))
           rs []).
Proof.
  rewrite reset_snake. unfold Toroidal.reset.
  match goal with |- context [Toroidal.generateObstacles ?n ?s rs] =>
    pose proof (generateObstacles_obstacles n s rs) as E;
    destruct (Toroidal.generateObstacles n s rs) as [g1 rs1]
  end.
  cbn [fst] in E. rewrite placeFood_only_food.
  cbn [Toroidal.obstacles Toroidal.set_food]. exact E.
Qed.

(** [reset] ends with a food placement on the board it has laid out. *)
Lemma reset_ends_with_placeFood (g : Toroidal.Game) (rs : Rng) :
  exists g1 r,
    Toroidal.reset g rs = Toroidal.placeFood g1 r /\
    Toroidal.snake g1 = Toroidal.snake (Toroidal.reset g rs) /\
    Toroidal.obstacles g1 = Toroidal.obstacles (Toroidal.reset g rs) /\
    Toroidal.cols g1 = Toroidal.cols g /\
    Toroidal.rows g1 = Toroidal.rows g.
Proof.
  unfold Toroidal.reset.
  match goal with |- context [Toroidal.generateObstacles ?n ?s rs] =>
    pose proof (generateObstacles_only_obstacles n s rs) as E;
    destruct (Toroidal.generateObstacles n s rs) as [g1 rs1]
  end.
  cbn [fst] in E. exists g1, (rs1 0%nat). split; [reflexivity |].
  rewrite (placeFood_only_food g1). cbn [Toroidal.snake Toroidal.obstacles
    Toroidal.set_food]. rewrite E. repeat split.
Qed.

(** The food of a placement is a free cell of the board it was placed on. *)
Lemma placeFood_food_free (g : Toroidal.Game) (r : nat) (f : Point) :
  Toroidal.food (Toroidal.placeFood g r) = Some f -> free_cell g f.
Proof.
  unfold Toroidal.placeFood.
  destruct (freeCells _ _ _) as [| c0 free] eqn:Hfree; [discriminate |].
  cbn [Toroidal.food Toroidal.set_food]. intros E.
  assert (Hin : In (nth (randomIndex r (length (c0 :: free)))
                        (c0 :: free) c0) (c0 :: free))
    by (apply random_cell_In; discriminate).
  replace f with (nth (randomIndex r (length (c0 :: free))) (c0 :: free) c0)
    by congruence.
  apply free_cell_freeCells. rewrite Hfree. exact Hin.
Qed.

Lemma placeFood_none (g : Toroidal.Game) (r : nat) :
  Toroidal.food (Toroidal.placeFood g r) = None <->
  (forall c, ~ free_cell g c).
Proof.
  unfold Toroidal.placeFood.
  destruct (freeCells _ _ _) as [| c0 free] eqn:Hfree.
  - split; [| reflexivity]. intros _ c Hc.
    apply free_cell_freeCells in Hc. rewrite Hfree in Hc. destruct Hc.
  - split; [discriminate |]. intros Hnone. exfalso. apply (Hnone c0).
    apply free_cell_freeCells. rewrite Hfree. now left.
Qed.

Lemma free_cell_same_board (g g' : Toroidal.Game) (c : Point) :
  Toroidal.cols g' = Toroidal.cols g ->
  Toroidal.rows g' = Toroidal.rows g ->
  Toroidal.snake g' = Toroidal.snake g ->
  Toroidal.obstacles g' = Toroidal.obstacles g ->
  free_cell g c -> free_cell g' c.
Proof. unfold free_cell. now intros -> -> -> ->. Qed.

(** X3.  After [reset] the food, when there is one, lies in the grid, on no
    segment and on no obstacle of the new round; there is none exactly when
    snake and obstacles cover the whole grid. *)
Theorem reset_food_is_free (g : Toroidal.Game) (rs : Rng) :
  let g' := Toroidal.reset g rs in
  (forall f, Toroidal.food g' = Some f ->
             in_grid (Toroidal.cols g) (Toroidal.rows g) f /\
             ~ In f (Toroidal.snake g') /\
             ~ In f (Toroidal.obstacles g')) /\
  (Toroidal.food g' = None <->
   forall c, in_grid (Toroidal.cols g) (Toroidal.rows g) c ->
             In c (Toroidal.snake g') \/ In c (Toroidal.obstacles g')).
Proof.
  cbv zeta.
  destruct (reset_ends_with_placeFood g rs) as (g1 & r & E & Es & Eo & Ec & Er).
  rewrite <- Es, <- Eo, <- Ec, <- Er, E. split.
  - intros f Hf. now apply placeFood_food_free in Hf.
  - rewrite placeFood_none. unfold free_cell. split.
    + intros Hnone c Hc.
      destruct (has (Toroidal.snake g1) c) eqn:Hs;
        [left; now apply has_In |].
      destruct (has (Toroidal.obstacles g1) c) eqn:Ho;
        [right; now apply has_In |].
      exfalso. apply (Hnone c). apply has_false in Hs. apply has_false in Ho.
      now split.
    + intros Hcov c (Hc & Hs & Ho). destruct (Hcov c Hc); contradiction.
Qed.

Lemma reset_food_is_free_witness :
  let g' := Toroidal.reset blocked_game (fun k => (7 * k)%nat) in
  in_grid 5 5 (pt 2 0) /\
  ~ In (pt 2 0) (Toroidal.snake g') /\
  ~ In (pt 2 0) (Toroidal.obstacles g').
Proof.
  apply (proj1 (reset_food_is_free blocked_game (fun k => (7 * k)%nat))
               (pt 2 0)).
  vm_compute. reflexivity.
Defined.

Lemma reset_obstacles_length (g : Toroidal.Game) (rs : Rng) :
  4 <= Toroidal.cols g -> 1 <= Toroidal.rows g ->
  length (Toroidal.obstacles (Toroidal.reset g rs))
  = Nat.min (Z.to_nat (Toroidal.obstacleCount g))
            (Z.to_nat (Toroidal.cols g) * Z.to_nat (Toroidal.rows g) - 3).
Proof.
  intros Hc Hr. rewrite reset_obstacles, pickObstacles_length.
  pose proof (length_freeCells (Toroidal.cols g) (Toroidal.rows g)
                _ (reset_snake_NoDup g rs) (reset_snake_in_grid g rs Hc Hr))
    as L.
  rewrite reset_snake in L at 2. cbn [length] in L. cbn [length]. lia.
Qed.

(** X4.  On a grid of at least 4 columns and 1 row, the round starts with
    as many obstacles as the configured count, but no more than the
    [cols * rows - 3] cells the snake leaves. *)
Theorem reset_obstacle_count (g : Toroidal.Game) (rs : Rng) :
  4 <= Toroidal.cols g -> 1 <= Toroidal.rows g ->
  Z.of_nat (length (Toroidal.obstacles (Toroidal.reset g rs)))
  = Z.min (Z.max 0 (Toroidal.obstacleCount g))
          (Toroidal.cols g * Toroidal.rows g - 3).
Proof.
  intros Hc Hr. rewrite (reset_obstacles_length g rs Hc Hr).
  assert (Hprod : Z.of_nat (Z.to_nat (Toroidal.cols g)
                            * Z.to_nat (Toroidal.rows g))
                  = Toroidal.cols g * Toroidal.rows g)
    by (rewrite Nat2Z.inj_mul; lia).
  lia.
Qed.

Lemma reset_obstacle_count_witness :
  Z.of_nat (length (Toroidal.obstacles
                      (Toroidal.reset blocked_game (fun k => (7 * k)%nat))))
  = 1.
Proof.
  apply (reset_obstacle_count blocked_game (fun k => (7 * k)%nat));
    cbn; lia.
Defined.

(** ** A step that moves the snake *)

(** The state after a step that hits nothing, in a game without pending
    growth: [a] is the [ate] flag of the result. *)
Lemma step_move (g : Toroidal.Game) (r : nat) (head : Point)
      (rest : list Point) :
  Toroidal.over g = false ->
  Toroidal.snake g = head :: rest ->
  Toroidal.growAmount g = 0 ->
  has (Toroidal.obstacles g) (candidate g head) = false ->
  has (Toroidal.snake g) (candidate g head) = false ->
  exists a,
    let c := candidate g head in
    let g' := snd (Toroidal.step g r) in
    fst (Toroidal.step g r) = Returns (mkResult a false None) /\
    Toroidal.snake g'
    = (if a then c :: Toroidal.snake g
       else removelast (c :: Toroidal.snake g)) /\
    Toroidal.score g' = Toroidal.score g + Z.b2z a /\
    Toroidal.growAmount g' = 0 /\
    Toroidal.obstacles g' = Toroidal.obstacles g /\
    Toroidal.cols g' = Toroidal.cols g /\
    Toroidal.rows g' = Toroidal.rows g /\
    Toroidal.obstacleCount g' = Toroidal.obstacleCount g /\
    Toroidal.over g' = false /\
    Toroidal.direction g' = Toroidal.nextDirection g /\
    Toroidal.nextDirection g' = Toroidal.nextDirection g /\
    (a = false ->
     Toroidal.food g' = Toroidal.food g /\ Toroidal.food g <> Some c) /\
    (a = true ->
     Toroidal.food g = Some c /\
     forall f, Toroidal.food g' = Some f -> free_cell g' f).
Proof.
  intros Ho Hs Hz Hobs Hself.
  rewrite (step_running g r head rest Ho Hs). cbn zeta.
  rewrite Hobs, Hself. cbn [fst snd].
  set (c := candidate g head).
  unfold Toroidal.eat.
  cbn [Toroidal.food Toroidal.set_snake Toroidal.set_direction
       Toroidal.growAmount Toroidal.score].
  destruct (Toroidal.food g) as [f |] eqn:Hf.
  - destruct ((x c =? x f) && (y c =? y f)) eqn:Hcf.
    + exists true. cbn [fst snd]. rewrite placeFood_only_food.
      unfold Toroidal.grow. cbn [Toroidal.growAmount Toroidal.set_food
        Toroidal.set_growAmount]. rewrite Hz.
      change (0 <? 0 + 1) with true. cbn.
      repeat (split; [reflexivity || exact Ho || lia |]).
      try (split; [intros Hab; discriminate Hab |]). intros _.
      assert (c = f) as <- by (now apply same_cell_eq). split; [reflexivity |].
      intros f' Hf'.
      match type of Hf' with
      | Toroidal.food (Toroidal.placeFood ?s r) = _ =>
          apply (placeFood_food_free s r) in Hf';
          apply (free_cell_same_board s); try reflexivity
      end.
      exact Hf'.
    + exists false. cbn [fst snd]. unfold Toroidal.grow.
      cbn [Toroidal.growAmount Toroidal.set_snake Toroidal.set_direction].
      rewrite Hz.
      change (0 <? 0) with false. cbn.
      repeat (split; [reflexivity || exact Hz || exact Ho || lia |]).
      try (split; [| intros Hab; discriminate Hab]). intros _. split; [exact Hf |].
      intros E. injection E as E. subst f.
      unfold same_cell in Hcf. now rewrite !Z.eqb_refl in Hcf.
  - exists false. cbn [fst snd]. unfold Toroidal.grow.
    cbn [Toroidal.growAmount Toroidal.set_snake Toroidal.set_direction].
    rewrite Hz.
    change (0 <? 0) with false. cbn.
    repeat (split; [reflexivity || exact Hz || exact Ho || lia |]).
    try (split; [| intros Hab; discriminate Hab]). intros _. split; [exact Hf | discriminate].
Qed.

(** ** What holds throughout a round *)

Lemma NoDup_removelast (l : list Point) : NoDup l -> NoDup (removelast l).
Proof.
  induction l as [| a l IH]; intros Hnd; [constructor |].
  destruct l as [| b l]; [constructor |].
  change (removelast (a :: b :: l)) with (a :: removelast (b :: l)).
  inversion Hnd as [| ? ? Ha Hl]; subst. constructor.
  - intros Hin. apply Ha. now apply In_removelast.
  - now apply IH.
Qed.

Lemma reset_round_invariant (g : Toroidal.Game) (rs : Rng) :
  grid_ok g -> round_invariant (Toroidal.reset g rs).
Proof.
  intros Hg. unfold round_invariant.
  split; [now apply reset_invariant |].
  split; [apply reset_snake_NoDup |].
  split; [now rewrite reset_shape |].
  split; [now rewrite reset_shape |].
  split; [| split].
  - intros f Hf.
    destruct (reset_ends_with_placeFood g rs)
      as (g1 & r & E & Es & Eo & Ec & Er).
    rewrite E in Hf. apply placeFood_food_free in Hf.
    apply (free_cell_same_board g1); try congruence.
    + rewrite Ec. now rewrite (reset_shape g rs).
    + rewrite Er. now rewrite (reset_shape g rs).
  - rewrite reset_obstacles.
    apply pickObstacles_NoDup; [constructor | apply NoDup_freeCells |].
    intros p [].
  - intros p Hp. rewrite reset_obstacles in Hp.
    apply pickObstacles_sub in Hp. destruct Hp as [[] | Hp].
    apply In_freeCells in Hp. rewrite (reset_shape g rs). cbn. tauto.
Qed.

Lemma setDirection_round_invariant (g : Toroidal.Game) (dir : Point) :
  round_invariant g -> round_invariant (Toroidal.setDirection g dir).
Proof.
  rewrite setDirection_cases. now destruct (accepted g dir).
Qed.

Lemma step_round_invariant (g : Toroidal.Game) (r : nat) :
  round_invariant g -> round_invariant (snd (Toroidal.step g r)).
Proof.
  intros (He & Hnd & Hlen & Hsc & Hfood & Hobs & Hgrid).
  unfold round_invariant.
  split; [now apply step_invariant |].
  destruct He as (_ & Hne & Hz & _).
  destruct (Toroidal.over g) eqn:Ho.
  { rewrite (step_when_over g r Ho). cbn [snd]. tauto. }
  destruct (Toroidal.snake g) as [| head rest] eqn:Hs; [contradiction |].
  destruct (has (Toroidal.obstacles g) (candidate g head)) eqn:Hco.
  { rewrite (step_running g r head rest Ho Hs). cbn zeta. rewrite Hco.
    cbn [snd]. rewrite <- Hs in Hnd, Hlen. tauto. }
  destruct (has (Toroidal.snake g) (candidate g head)) eqn:Hcs.
  { rewrite (step_running g r head rest Ho Hs). cbn zeta. rewrite Hco, Hcs.
    cbn [snd]. rewrite <- Hs in Hnd, Hlen. tauto. }
  destruct (step_move g r head rest Ho Hs Hz Hco Hcs)
    as (a & _ & Esn & Esc & _ & Eob & Ec & Er & _ & _ & _ & _ & Hno & Hyes).
  cbv zeta in Esn, Esc, Eob, Ec, Er, Hno, Hyes.
  set (g' := snd (Toroidal.step g r)) in *.
  set (c := candidate g head) in *.
  rewrite <- Hs in Hnd, Hlen. apply has_false in Hcs.
  assert (Hnd' : NoDup (c :: Toroidal.snake g)) by (now constructor).
  assert (Hsub : forall p, In p (Toroidal.snake g') ->
                           In p (c :: Toroidal.snake g)).
  { intros p. rewrite Esn. destruct a; [trivial | apply In_removelast]. }
  split; [| split; [| split; [| split; [| split]]]].
  - rewrite Esn. destruct a; [exact Hnd' | now apply NoDup_removelast].
  - rewrite Esn, Esc. destruct a; cbn [Z.b2z].
    + cbn [length]. lia.
    + rewrite length_removelast_cons. lia.
  - rewrite Esc. destruct a; cbn [Z.b2z]; lia.
  - intros f Hf. destruct a.
    + now apply (proj2 (Hyes eq_refl)).
    + destruct (Hno eq_refl) as [Ef Hfc]. rewrite Ef in Hf.
      destruct (Hfood f Hf) as (Hin & Hsn & Hob). unfold free_cell.
      rewrite Ec, Er, Eob. split; [exact Hin |]. split; [| exact Hob].
      intros Hp. apply Hsub in Hp. destruct Hp as [<- | Hp]; [| contradiction].
      now apply Hfc.
  - now rewrite Eob.
  - unfold all_in_grid. rewrite Eob, Ec, Er. exact Hgrid.
Qed.

(** Every state of a round started by [reset] on a positive grid satisfies
    [round_invariant]. *)
Lemma run_round_invariant (calls : list Toroidal.Call) (g : Toroidal.Game) :
  round_invariant g -> round_invariant (Toroidal.run calls g).
Proof.
  revert g. induction calls as [| c calls IH]; intros g Hinv; [exact Hinv |].
  rewrite run_cons. apply IH. destruct c as [rs | dir | r]; cbn.
  - apply reset_round_invariant. now destruct Hinv as [[? _] _].
  - now apply setDirection_round_invariant.
  - now apply step_round_invariant.
Qed.

(** X5.  In every state the engine reaches from a reset on a positive grid
    the snake has a head, no two of its segments share a cell, and no
    segment lies on an obstacle. *)
Theorem snake_never_overlaps (g : Toroidal.Game) (rs : Rng)
        (calls : list Toroidal.Call) :
  grid_ok g ->
  let s := Toroidal.run calls (Toroidal.reset g rs) in
  Toroidal.snake s <> [] /\
  NoDup (Toroidal.snake s) /\
  (forall p, In p (Toroidal.snake s) -> ~ In p (Toroidal.obstacles s)).
Proof.
  intros Hg s.
  destruct (run_round_invariant calls _ (reset_round_invariant g rs Hg))
    as ((_ & Hne & _ & Hclear) & Hnd & _).
  fold s in Hne, Hclear, Hnd. now split.
Qed.

Lemma snake_never_overlaps_witness :
  let s := Toroidal.run
             [Toroidal.CallStep 1; Toroidal.CallSetDirection (pt 0 1);
              Toroidal.CallStep 2; Toroidal.CallStep 3]
             (Toroidal.reset blocked_game (fun k => (7 * k)%nat)) in
  Toroidal.snake s <> [] /\
  NoDup (Toroidal.snake s) /\
  (forall p, In p (Toroidal.snake s) -> ~ In p (Toroidal.obstacles s)).
Proof.
  apply (snake_never_overlaps blocked_game). split; reflexivity.
Defined.

(** X6.  In every state the engine reaches from a reset on a positive grid
    the snake has three segments more than the score: it starts with three
    and gains one with every point. *)
Theorem length_is_three_plus_score (g : Toroidal.Game) (rs : Rng)
        (calls : list Toroidal.Call) :
  grid_ok g ->
  let s := Toroidal.run calls (Toroidal.reset g rs) in
  Z.of_nat (length (Toroidal.snake s)) = 3 + Toroidal.score s /\
  0 <= Toroidal.score s.
Proof.
  intros Hg s.
  destruct (run_round_invariant calls _ (reset_round_invariant g rs Hg))
    as (_ & _ & Hlen & Hsc & _).
  now split.
Qed.

Lemma length_is_three_plus_score_witness :
  let s := Toroidal.run
             [Toroidal.CallStep 1; Toroidal.CallSetDirection (pt 0 1);
              Toroidal.CallStep 2; Toroidal.CallStep 3]
             (Toroidal.reset blocked_game (fun k => (7 * k)%nat)) in
  Z.of_nat (length (Toroidal.snake s)) = 3 + Toroidal.score s /\
  0 <= Toroidal.score s.
Proof.
  apply (length_is_three_plus_score blocked_game). split; reflexivity.
Defined.

(** X7.  In every state the engine reaches from a reset on a positive grid
    the food, when there is one, is a cell of the grid that holds no segment
    and no obstacle: a step can never eat and collide at once. *)
Theorem food_stays_free (g : Toroidal.Game) (rs : Rng)
        (calls : list Toroidal.Call) (f : Point) :
  grid_ok g ->
  let s := Toroidal.run calls (Toroidal.reset g rs) in
  Toroidal.food s = Some f ->
  in_grid (Toroidal.cols s) (Toroidal.rows s) f /\
  ~ In f (Toroidal.snake s) /\
  ~ In f (Toroidal.obstacles s).
Proof.
  intros Hg s Hf.
  destruct (run_round_invariant calls _ (reset_round_invariant g rs Hg))
    as (_ & _ & _ & _ & Hfood & _).
  exact (Hfood f Hf).
Qed.


Lemma food_stays_free_witness :
  let s := Toroidal.run
             [Toroidal.CallStep 1; Toroidal.CallSetDirection (pt 0 1);
              Toroidal.CallStep 2; Toroidal.CallStep 3]
             (Toroidal.reset blocked_game (fun k => (7 * k)%nat)) in
  in_grid (Toroidal.cols s) (Toroidal.rows s) (pt 2 0) /\
  ~ In (pt 2 0) (Toroidal.snake s) /\
  ~ In (pt 2 0) (Toroidal.obstacles s).
Proof.
  apply (food_stays_free blocked_game (fun k => (7 * k)%nat)).
  - split; reflexivity.
  - vm_compute. reflexivity.
Defined.

(** ** The reversal guard *)

Lemma unit_dir_bounds (d : Point) :
  unit_dir d -> -1 <= x d <= 1 /\ -1 <= y d <= 1 /\ d <> reversed d.
Proof.
  intros [-> | [-> | [-> | ->]]]; cbn; repeat split; try lia; discriminate.
Qed.

Lemma small_multiple (k n : Z) :
  3 <= n -> -2 <= k <= 2 -> k mod n = 0 -> k = 0.
Proof.
  intros Hn Hk Hm. apply Z.mod_divide in Hm; [| lia].
  destruct Hm as [q Hq].
  assert (Hq3 : q <= -1 \/ q = 0 \/ 1 <= q) by lia.
  destruct Hq3 as [Hneg | [-> | Hpos]]; [nia | lia | nia].
Qed.

Lemma wrap_step_back (a d n : Z) :
  0 < n -> (wrap (a + d) n - d - a) mod n = 0.
Proof.
  intros Hn. rewrite wrap_mod by exact Hn.
  replace ((a + d) mod n - d - a) with ((a + d) mod n - (a + d)) by lia.
  rewrite Zminus_mod_idemp_l. rewrite Z.sub_diag. apply Zmod_0_l.
Qed.

Lemma reset_heading_invariant (g : Toroidal.Game) (rs : Rng) :
  heading_invariant (Toroidal.reset g rs).
Proof.
  unfold heading_invariant, neck_behind. rewrite (reset_shape g rs). cbn.
  split; [now left |]. split; [now left |]. split; [discriminate |].
  intros _ h n rest E. injection E as <- <- _. cbn.
  split;
    match goal with
    | |- ?e mod _ = 0 => replace e with 0 by lia; apply Zmod_0_l
    end.
Qed.

Lemma setDirection_heading_invariant (g : Toroidal.Game) (dir : Point) :
  unit_dir dir ->
  heading_invariant g -> heading_invariant (Toroidal.setDirection g dir).
Proof.
  intros Hu (Hd & Hn & Hrev & Hneck). rewrite setDirection_cases.
  destruct (accepted g dir) eqn:A; unfold heading_invariant.
  - apply accepted_iff in A. cbn. tauto.
  - tauto.
Qed.

Lemma moved_neck (g : Toroidal.Game) (head : Point) (rest : list Point)
      (a : bool) :
  grid_ok g ->
  forall h n rest',
    (if a then candidate g head :: head :: rest
     else removelast (candidate g head :: head :: rest)) = h :: n :: rest' ->
    (x h - x (Toroidal.nextDirection g) - x n) mod Toroidal.cols g = 0 /\
    (y h - y (Toroidal.nextDirection g) - y n) mod Toroidal.rows g = 0.
Proof.
  intros [Hc Hr] h n rest' E.
  assert (E' : h = candidate g head /\ n = head).
  { destruct a.
    - injection E as <- <- _. now split.
    - destruct rest as [| b rest0]; [discriminate E |].
      change (removelast (candidate g head :: head :: b :: rest0))
        with (candidate g head :: head :: removelast (b :: rest0)) in E.
      injection E as <- <- _. now split. }
  destruct E' as [-> ->]. unfold candidate, Toroidal.newHead.
  cbn [x y Toroidal.direction Toroidal.set_direction Toroidal.cols
       Toroidal.rows].
  split; now apply wrap_step_back.
Qed.

Lemma step_heading_invariant (g : Toroidal.Game) (r : nat) :
  grid_ok g -> Toroidal.growAmount g = 0 ->
  heading_invariant g -> heading_invariant (snd (Toroidal.step g r)).
Proof.
  intros Hg Hz (Hd & Hn & Hrev & Hneck).
  pose proof (unit_dir_bounds _ Hn) as (_ & _ & Hnn).
  destruct (Toroidal.over g) eqn:Ho.
  { rewrite (step_when_over g r Ho). cbn [snd]. unfold heading_invariant.
    repeat (split; [assumption |]). intros Ho'. congruence. }
  destruct (Toroidal.snake g) as [| head rest] eqn:Hs.
  { rewrite (step_no_head g r Ho Hs). cbn [snd].
    unfold heading_invariant, neck_behind.
    cbn [Toroidal.direction Toroidal.nextDirection Toroidal.over
         Toroidal.snake Toroidal.set_direction].
    repeat (split; [assumption |]).
    intros _ h n rest' E. rewrite Hs in E. discriminate E. }
  destruct (has (Toroidal.obstacles g) (candidate g head)) eqn:Hco.
  { rewrite (step_running g r head rest Ho Hs). cbn zeta. rewrite Hco.
    unfold heading_invariant.
    cbn [snd Toroidal.direction Toroidal.nextDirection Toroidal.over
         Toroidal.set_over Toroidal.set_direction].
    repeat (split; [assumption |]). intros Hab; discriminate Hab. }
  destruct (has (Toroidal.snake g) (candidate g head)) eqn:Hcs.
  { rewrite (step_running g r head rest Ho Hs). cbn zeta. rewrite Hco, Hcs.
    unfold heading_invariant.
    cbn [snd Toroidal.direction Toroidal.nextDirection Toroidal.over
         Toroidal.set_over Toroidal.set_direction].
    repeat (split; [assumption |]). intros Hab; discriminate Hab. }
  destruct (step_move g r head rest Ho Hs Hz Hco Hcs)
    as (a & _ & Esn & _ & _ & _ & Ec & Er & _ & _ & Edir & Enext & _).
  cbv zeta in Esn, Ec, Er, Edir, Enext.
  unfold heading_invariant, neck_behind. rewrite Edir, Enext, Ec, Er, Esn.
  repeat (split; [assumption |]).
  intros _ h n rest' E. rewrite Hs in E.
  exact (moved_neck g head rest a Hg h n rest' E).
Qed.

Lemma step_config (g : Toroidal.Game) (r : nat) :
  Toroidal.cols (snd (Toroidal.step g r)) = Toroidal.cols g /\
  Toroidal.rows (snd (Toroidal.step g r)) = Toroidal.rows g /\
  Toroidal.obstacleCount (snd (Toroidal.step g r)) = Toroidal.obstacleCount g /\
  Toroidal.obstacles (snd (Toroidal.step g r)) = Toroidal.obstacles g.
Proof.
  step_cases g r; cbn [snd Toroidal.cols Toroidal.rows Toroidal.obstacleCount
                       Toroidal.obstacles Toroidal.set_over
                       Toroidal.set_direction]; try (repeat split; reflexivity).
  match goal with |- context [Toroidal.eat ?s ?c r] =>
    pose proof (eat_effect s c r) as E; cbn zeta in E;
    destruct (grow_effect (snd (Toroidal.eat s c r)))
      as (_ & Go & Gc & Gr & _ & _ & _ & _ & Gn)
  end.
  destruct E as (_ & _ & _ & Eo & Ec & Er & _ & _ & _ & En).
  rewrite Go, Gc, Gr, Gn, Eo, Ec, Er, En. repeat split.
Qed.

(** No call changes the grid or the configured obstacle count. *)
Lemma perform_config (g : Toroidal.Game) (c : Toroidal.Call) :
  Toroidal.cols (Toroidal.perform g c) = Toroidal.cols g /\
  Toroidal.rows (Toroidal.perform g c) = Toroidal.rows g /\
  Toroidal.obstacleCount (Toroidal.perform g c) = Toroidal.obstacleCount g.
Proof.
  destruct c as [rs | dir | r]; cbn [Toroidal.perform].
  - rewrite (reset_shape g rs). repeat split.
  - rewrite setDirection_cases. destruct (accepted g dir); repeat split.
  - destruct (step_config g r) as (-> & -> & -> & _). repeat split.
Qed.

Lemma run_config (calls : list Toroidal.Call) (g : Toroidal.Game) :
  Toroidal.cols (Toroidal.run calls g) = Toroidal.cols g /\
  Toroidal.rows (Toroidal.run calls g) = Toroidal.rows g /\
  Toroidal.obstacleCount (Toroidal.run calls g) = Toroidal.obstacleCount g.
Proof.
  revert g. induction calls as [| c calls IH]; intros g; [repeat split |].
  rewrite run_cons. destruct (IH (Toroidal.perform g c)) as (-> & -> & ->).
  apply perform_config.
Qed.

Lemma unit_requests_cons (c : Toroidal.Call) (calls : list Toroidal.Call) :
  unit_requests (c :: calls) ->
  match c with
  | Toroidal.CallSetDirection d => unit_dir d
  | _ => True
  end /\ unit_requests calls.
Proof.
  unfold unit_requests. cbn [requests flat_map]. intros H. split.
  - destruct c as [rs | d | r]; [exact I | | exact I].
    apply H. now left.
  - intros d Hd. apply H. apply in_or_app. now right.
Qed.

Lemma run_heading_invariant (calls : list Toroidal.Call) (g : Toroidal.Game) :
  unit_requests calls ->
  engine_invariant g -> heading_invariant g ->
  heading_invariant (Toroidal.run calls g).
Proof.
  revert g. induction calls as [| c calls IH]; intros g Hu He Hh; [exact Hh |].
  apply unit_requests_cons in Hu. destruct Hu as [Hc Hu].
  rewrite run_cons. apply IH; [exact Hu | |].
  - exact (run_keeps_engine_invariant [c] g He).
  - destruct c as [rs | dir | r]; cbn [Toroidal.perform].
    + apply reset_heading_invariant.
    + now apply setDirection_heading_invariant.
    + destruct He as (Hg & _ & Hz & _). now apply step_heading_invariant.
Qed.

(** X8.  The reversal guard does its work: on a grid of at least 3 columns
    and 3 rows, when every direction request is a unit vector, the candidate
    head of a running game is never the second segment, so no step ends in
    a collision with the neck. *)
Theorem head_never_hits_neck (g : Toroidal.Game) (rs : Rng)
        (calls : list Toroidal.Call) (h n : Point) (rest : list Point) :
  3 <= Toroidal.cols g -> 3 <= Toroidal.rows g ->
  unit_requests calls ->
  let s := Toroidal.run calls (Toroidal.reset g rs) in
  Toroidal.over s = false ->
  Toroidal.snake s = h :: n :: rest ->
  candidate s h <> n.
Proof.
  intros Hc Hr Hu s Ho Hs Hcand.
  assert (Hg : grid_ok g) by (unfold grid_ok; lia).
  pose proof (run_heading_invariant calls _ Hu (reset_invariant g rs Hg)
                (reset_heading_invariant g rs)) as (Hd & Hn & Hrev & Hneck).
  fold s in Hd, Hn, Hrev, Hneck.
  destruct (run_config calls (Toroidal.reset g rs)) as (Ec & Er & _).
  fold s in Ec, Er. rewrite (reset_shape g rs) in Ec, Er. cbn in Ec, Er.
  destruct (Hneck Ho h n rest Hs) as [Nx Ny]. rewrite Ec in Nx. rewrite Er in Ny.
  apply Hrev.
  pose proof (unit_dir_bounds _ Hd) as (Dx & Dy & _).
  pose proof (unit_dir_bounds _ Hn) as (Ex & Ey & _).
  assert (Cx : x n = (x h + x (Toroidal.nextDirection s)) mod Toroidal.cols g).
  { rewrite <- Hcand. unfold candidate, Toroidal.newHead. cbn.
    rewrite Ec. apply wrap_mod. lia. }
  assert (Cy : y n = (y h + y (Toroidal.nextDirection s)) mod Toroidal.rows g).
  { rewrite <- Hcand. unfold candidate, Toroidal.newHead. cbn.
    rewrite Er. apply wrap_mod. lia. }
  rewrite Cx in Nx. rewrite Cy in Ny.
  rewrite Zminus_mod_idemp_r in Nx, Ny.
  apply small_multiple in Nx; [| lia | lia].
  apply small_multiple in Ny; [| lia | lia].
  destruct (Toroidal.nextDirection s) as [nx ny].
  destruct (Toroidal.direction s) as [dx dy]. unfold reversed. cbn in *.
  f_equal; lia.
Qed.

Lemma head_never_hits_neck_witness :
  let s := Toroidal.run
             [Toroidal.CallStep 1; Toroidal.CallSetDirection (pt 0 1);
              Toroidal.CallSetDirection (pt (-1) 0)]
             (Toroidal.reset blocked_game (fun k => (7 * k)%nat)) in
  candidate s (pt 3 2) <> pt 2 2.
Proof.
  apply (head_never_hits_neck blocked_game (fun k => (7 * k)%nat) _
           (pt 3 2) (pt 2 2) [pt 1 2]).
  - cbn. lia.
  - cbn. lia.
  - intros d Hd. cbn in Hd. unfold unit_dir.
    destruct Hd as [<- | [<- | []]]; tauto.
  - reflexivity.
  - reflexivity.
Defined.

(** ** Staying on the board *)

(** The segments after a step are segments from before it, or the
    candidate head. *)
Lemma step_snake_sub (g : Toroidal.Game) (r : nat) (p : Point) :
  In p (Toroidal.snake (snd (Toroidal.step g r))) ->
  In p (Toroidal.snake g) \/
  exists head rest, Toroidal.snake g = head :: rest /\ p = candidate g head.
Proof.
  step_cases g r; cbn [snd Toroidal.snake Toroidal.set_over
                       Toroidal.set_direction];
    try (intros H; now left); try (intros H; left; rewrite <- Hs; exact H).
  eat_facts r E. destruct E as (_ & _ & Es & _).
  intros Hp.
  assert (Hp' : In p (candidate g head :: Toroidal.snake g)).
  { unfold Toroidal.grow in Hp. destruct (0 <? _).
    - cbn [Toroidal.snake Toroidal.set_growAmount] in Hp.
      now rewrite Es in Hp.
    - cbn [Toroidal.snake Toroidal.set_snake] in Hp. rewrite Es in Hp.
      now apply In_removelast. }
  destruct Hp' as [<- | Hp']; [right | left; now rewrite <- Hs].
  exists head, rest. split; reflexivity.
Qed.

Lemma candidate_in_grid (g : Toroidal.Game) (head : Point) :
  grid_ok g -> in_grid (Toroidal.cols g) (Toroidal.rows g) (candidate g head).
Proof.
  intros [Hc Hr]. unfold in_grid, candidate, Toroidal.newHead.
  cbn [x y Toroidal.cols Toroidal.rows Toroidal.direction
       Toroidal.set_direction].
  split; now apply wrap_range.
Qed.

Lemma perform_snake_in_grid (g : Toroidal.Game) (c : Toroidal.Call) :
  4 <= Toroidal.cols g -> 1 <= Toroidal.rows g ->
  all_in_grid g (Toroidal.snake g) ->
  all_in_grid (Toroidal.perform g c) (Toroidal.snake (Toroidal.perform g c)).
Proof.
  intros Hc Hr Hin. unfold all_in_grid.
  destruct (perform_config g c) as (-> & -> & _).
  destruct c as [rs | dir | r]; cbn [Toroidal.perform].
  - now apply reset_snake_in_grid.
  - rewrite setDirection_cases. now destruct (accepted g dir).
  - intros p Hp. apply step_snake_sub in Hp.
    destruct Hp as [Hp | (head & rest & _ & ->)]; [now apply Hin |].
    apply candidate_in_grid. unfold grid_ok. lia.
Qed.

(** X9.  On a grid of at least 4 columns and 1 row every segment of the
    snake is a cell of the grid, in every state the engine reaches from a
    reset. *)
Theorem snake_stays_in_grid (g : Toroidal.Game) (rs : Rng)
        (calls : list Toroidal.Call) :
  4 <= Toroidal.cols g -> 1 <= Toroidal.rows g ->
  forall p, In p (Toroidal.snake (Toroidal.run calls (Toroidal.reset g rs))) ->
            in_grid (Toroidal.cols g) (Toroidal.rows g) p.
Proof.
  intros Hc Hr.
  assert (H : forall s,
             Toroidal.cols s = Toroidal.cols g ->
             Toroidal.rows s = Toroidal.rows g ->
             all_in_grid s (Toroidal.snake s) ->
             all_in_grid (Toroidal.run calls s)
                         (Toroidal.snake (Toroidal.run calls s))).
  { induction calls as [| c calls IH]; intros s Ec Er Hs; [exact Hs |].
    rewrite run_cons. destruct (perform_config s c) as (Ec' & Er' & _).
    apply IH; [congruence | congruence |].
    apply perform_snake_in_grid; [lia | lia | exact Hs]. }
  intros p Hp.
  assert (Ec : Toroidal.cols (Toroidal.reset g rs) = Toroidal.cols g)
    by (now rewrite reset_shape).
  assert (Er : Toroidal.rows (Toroidal.reset g rs) = Toroidal.rows g)
    by (now rewrite reset_shape).
  specialize (H (Toroidal.reset g rs) Ec Er).
  unfold all_in_grid in H at 1. rewrite Ec, Er in H.
  specialize (H (reset_snake_in_grid g rs Hc Hr) p Hp).
  destruct (run_config calls (Toroidal.reset g rs)) as (Ec2 & Er2 & _).
  now rewrite Ec2, Er2, Ec, Er in H.
Qed.

Lemma snake_stays_in_grid_witness :
  in_grid 5 5 (pt 3 4).
Proof.
  apply (snake_stays_in_grid blocked_game (fun k => (7 * k)%nat)
           [Toroidal.CallStep 1; Toroidal.CallSetDirection (pt 0 1);
            Toroidal.CallStep 2; Toroidal.CallStep 3]).
  - cbn. lia.
  - cbn. lia.
  - vm_compute. left. reflexivity.
Defined.

(** X10.  The first step of a fresh round, with no direction request, ends
    in a collision with the snake itself exactly when the grid has fewer
    than 3 columns: the wrap then brings the head back onto the snake. *)
Theorem first_step_on_narrow_grid (g : Toroidal.Game) (rs : Rng) (r : nat) :
  grid_ok g ->
  (exists g',
      Toroidal.step (Toroidal.reset g rs) r
      = (Returns (mkResult false true (Some self)), g'))
  <-> Toroidal.cols g <= 2.
Proof.
  intros [Hc Hr].
  set (s := Toroidal.reset g rs).
  assert (Ho : Toroidal.over s = false) by (unfold s; now rewrite reset_shape).
  pose proof (reset_snake g rs) as Hs. fold s in Hs.
  set (mx := Toroidal.cols g / 2) in *. set (my := Toroidal.rows g / 2) in *.
  assert (Hmx : 2 * mx <= Toroidal.cols g <= 2 * mx + 1).
  { unfold mx. pose proof (Z.div_mod (Toroidal.cols g) 2).
    pose proof (Z.mod_pos_bound (Toroidal.cols g) 2). lia. }
  assert (Hmy : 0 <= my < Toroidal.rows g).
  { unfold my. pose proof (Z.div_mod (Toroidal.rows g) 2).
    pose proof (Z.mod_pos_bound (Toroidal.rows g) 2). lia. }
  assert (Hcand : candidate s (pt mx my)
                  = pt ((mx + 1) mod Toroidal.cols g) my).
  { unfold candidate, Toroidal.newHead, s. rewrite (reset_shape g rs).
    cbn [x y pt Toroidal.cols Toroidal.rows Toroidal.direction
         Toroidal.nextDirection Toroidal.set_direction].
    unfold pt. f_equal.
    - now apply wrap_mod.
    - rewrite wrap_mod by exact Hr. rewrite Z.add_0_r.
      now apply Z.mod_small. }
  split.
  - intros [g' Hstep].
    destruct (Z_le_gt_dec (Toroidal.cols g) 2) as [Hle | Hgt]; [exact Hle |].
    exfalso.
    rewrite (step_running s r _ _ Ho Hs) in Hstep. cbn zeta in Hstep.
    destruct (has (Toroidal.obstacles s) _); [discriminate Hstep |].
    assert (Hfree : has (Toroidal.snake s) (candidate s (pt mx my)) = false).
    { apply has_false. rewrite Hcand, Hs.
      rewrite Z.mod_small by lia. unfold pt.
      intros [H | [H | [H | []]]]; injection H; lia. }
    rewrite Hfree in Hstep. discriminate Hstep.
  - intros Hle.
    assert (Hin : In (candidate s (pt mx my)) (Toroidal.snake s)).
    { rewrite Hcand, Hs.
      assert (Hcases : Toroidal.cols g = 1 \/ Toroidal.cols g = 2) by lia.
      destruct Hcases as [E | E]; rewrite E in *.
      - assert (mx = 0) as -> by lia. left. reflexivity.
      - assert (mx = 1) as -> by lia. right. left. reflexivity. }
    eexists. apply (step_on_snake s r _ _ Ho Hs Hin).
    intros Hobs. now apply (reset_obstacles_free g rs _ Hobs).
Qed.

Lemma first_step_on_narrow_grid_witness :
  exists g',
    Toroidal.step
      (Toroidal.reset
         (Toroidal.mkGame 2 4 1 [] (pt 0 0) (pt 0 0) None 0 false 0 [])
         (fun k => k)) 0
    = (Returns (mkResult false true (Some self)), g').
Proof.
  apply (first_step_on_narrow_grid
           (Toroidal.mkGame 2 4 1 [] (pt 0 0) (pt 0 0) None 0 false 0 [])
           (fun k => k) 0%nat).
  - split; reflexivity.
  - cbn. lia.
Defined.

(** ** After the game is over, and a board without food *)

Lemma requests_app (calls more : list Toroidal.Call) :
  requests (calls ++ more) = requests calls ++ requests more.
Proof. unfold requests. apply flat_map_app. Qed.

Lemma no_reset_app (calls more : list Toroidal.Call) :
  no_reset (calls ++ more) <-> no_reset calls /\ no_reset more.
Proof. unfold no_reset. rewrite existsb_app. apply orb_false_iff. Qed.

Lemma set_nextDirection_twice (u v : Point) (g : Toroidal.Game) :
  Toroidal.set_nextDirection v (Toroidal.set_nextDirection u g)
  = Toroidal.set_nextDirection v g.
Proof. reflexivity. Qed.

(** X11.  Once the game is over it stays over until the next reset: steps
    change nothing, and direction requests still replace the queued
    direction (the last request that is not a reversal wins) but nothing
    else. *)
Theorem over_until_reset (g : Toroidal.Game) (calls : list Toroidal.Call) :
  Toroidal.over g = true ->
  no_reset calls ->
  Toroidal.run calls g
  = Toroidal.set_nextDirection
      (last (filter (accepted g) (requests calls)) (Toroidal.nextDirection g))
      g.
Proof.
  intros Ho. induction calls as [| c calls IH] using rev_ind; intros Hn.
  - now destruct g.
  - apply no_reset_app in Hn. destruct Hn as [Hn Hc].
    rewrite run_snoc, (IH Hn), requests_app, filter_app.
    destruct c as [rs | dir | r]; [discriminate Hc | |].
    + cbn [Toroidal.perform requests flat_map app filter].
      rewrite setDirection_cases.
      change (accepted (Toroidal.set_nextDirection _ g) dir)
        with (accepted g dir).
      destruct (accepted g dir).
      * now rewrite last_last, set_nextDirection_twice.
      * now rewrite app_nil_r.
    + cbn [Toroidal.perform requests flat_map app filter].
      rewrite app_nil_r. now rewrite step_when_over.
Qed.

Lemma over_until_reset_witness :
  let g := snd (Toroidal.step loop_game 0) in
  Toroidal.run [Toroidal.CallStep 4; Toroidal.CallSetDirection (pt 1 0);
                Toroidal.CallSetDirection (pt 0 1); Toroidal.CallStep 5] g
  = Toroidal.set_nextDirection (pt 1 0) g.
Proof.
  cbv zeta.
  apply (over_until_reset (snd (Toroidal.step loop_game 0))
           [Toroidal.CallStep 4; Toroidal.CallSetDirection (pt 1 0);
            Toroidal.CallSetDirection (pt 0 1); Toroidal.CallStep 5]);
    reflexivity.
Defined.

Lemma step_without_food (g : Toroidal.Game) (r : nat) :
  Toroidal.food g = None ->
  Toroidal.food (snd (Toroidal.step g r)) = None /\
  Toroidal.score (snd (Toroidal.step g r)) = Toroidal.score g /\
  forall res, fst (Toroidal.step g r) = Returns res -> ate res = false.
Proof.
  intros Hf.
  step_cases g r; cbn [fst snd Toroidal.food Toroidal.score Toroidal.set_over
                       Toroidal.set_direction];
    try (repeat split; try exact Hf; intros res E; try discriminate E;
         injection E as <-; reflexivity).
  unfold Toroidal.eat.
  cbn [Toroidal.food Toroidal.set_snake Toroidal.set_direction].
  rewrite Hf. cbn [fst snd].
  destruct (grow_effect
              (Toroidal.set_snake (candidate g head :: Toroidal.snake g)
                 (Toroidal.set_direction (Toroidal.nextDirection g) g)))
    as (Gs & _ & _ & _ & _ & Gf & _).
  rewrite Gs, Gf. cbn. repeat split; try exact Hf.
  intros res E. injection E as <-. reflexivity.
Qed.

(** X12.  While there is no food (the board was full when food was last
    placed) no step eats: along any sequence of steps and direction requests
    the score stays as it is and no food appears, even when the snake has
    moved on and cells are free again. *)
Theorem no_food_until_reset (g : Toroidal.Game)
        (calls : list Toroidal.Call) :
  grid_ok g ->
  Toroidal.food g = None ->
  no_reset calls ->
  Toroidal.food (Toroidal.run calls g) = None /\
  Toroidal.score (Toroidal.run calls g) = Toroidal.score g /\
  meals calls g = 0.
Proof.
  intros _. revert g. unfold no_reset.
  induction calls as [| c calls IH]; intros g Hf Hn; [now repeat split |].
  cbn [existsb] in Hn. apply orb_false_iff in Hn. destruct Hn as [Hc Hn].
  rewrite run_cons. cbn [meals].
  destruct c as [rs | dir | r]; [discriminate Hc | |].
  - cbn [Toroidal.perform]. rewrite setDirection_cases.
    assert (E : (if accepted g dir then Toroidal.set_nextDirection dir g
                 else g) = Toroidal.set_nextDirection
                             (if accepted g dir then dir
                              else Toroidal.nextDirection g) g)
      by (destruct (accepted g dir); [reflexivity | now destruct g]).
    rewrite E.
    destruct (IH (Toroidal.set_nextDirection
                    (if accepted g dir then dir else Toroidal.nextDirection g)
                    g) Hf Hn) as (F & S & M).
    rewrite F, S, M. now repeat split.
  - cbn [Toroidal.perform].
    destruct (step_without_food g r Hf) as (F1 & S1 & A1).
    destruct (IH _ F1 Hn) as (F & S & M). rewrite F, S, M, S1.
    repeat split. unfold meal.
    destruct (fst (Toroidal.step g r)) as [res |] eqn:E; [| reflexivity].
    now rewrite (A1 res eq_refl).
Qed.

(** A game on a 4 x 1 board that has no food: the snake circles, nothing
    is ever eaten. *)
Lemma no_food_until_reset_witness :
  let g := Toroidal.mkGame 4 1 7 [pt 2 0; pt 1 0; pt 0 0] (pt 1 0) (pt 1 0)
                           None 0 false 0 [] in
  let calls := [Toroidal.CallStep 0; Toroidal.CallStep 1] in
  Toroidal.food (Toroidal.run calls g) = None /\
  Toroidal.score (Toroidal.run calls g) = Toroidal.score g /\
  meals calls g = 0.
Proof.
  cbv zeta. apply no_food_until_reset.
  - split; reflexivity.
  - reflexivity.
  - reflexivity.
Defined.

(** ** Reset forgets the round *)

Lemma generateObstacles_reads (n n' : Z) (s s' : Toroidal.Game) (rs : Rng) :
  n' = n ->
  Toroidal.cols s' = Toroidal.cols s ->
  Toroidal.rows s' = Toroidal.rows s ->
  Toroidal.snake s' = Toroidal.snake s ->
  Toroidal.obstacles (fst (Toroidal.generateObstacles n' s' rs))
  = Toroidal.obstacles (fst (Toroidal.generateObstacles n s rs)) /\
  snd (Toroidal.generateObstacles n' s' rs)
  = snd (Toroidal.generateObstacles n s rs).
Proof.
  intros -> Ec Er Es. unfold Toroidal.generateObstacles.
  cbn [Toroidal.snake Toroidal.cols Toroidal.rows Toroidal.set_obstacles].
  rewrite Ec, Er, Es. destruct (n <=? 0); [now split |].
  destruct (Toroidal.pickObstacles _ _ rs []) as [obs rs']. now split.
Qed.

Lemma placeFood_food_reads (s s' : Toroidal.Game) (r : nat) :
  Toroidal.cols s' = Toroidal.cols s ->
  Toroidal.rows s' = Toroidal.rows s ->
  Toroidal.snake s' = Toroidal.snake s ->
  Toroidal.obstacles s' = Toroidal.obstacles s ->
  Toroidal.food (Toroidal.placeFood s' r)
  = Toroidal.food (Toroidal.placeFood s r).
Proof.
  intros Ec Er Es Eo. unfold Toroidal.placeFood. rewrite Ec, Er, Es, Eo.
  now destruct (freeCells _ _ _).
Qed.

Lemma reset_food_reads (g g' : Toroidal.Game) (rs : Rng) :
  Toroidal.cols g' = Toroidal.cols g ->
  Toroidal.rows g' = Toroidal.rows g ->
  Toroidal.obstacleCount g' = Toroidal.obstacleCount g ->
  Toroidal.food (Toroidal.reset g' rs) = Toroidal.food (Toroidal.reset g rs).
Proof.
  intros Ec Er En. unfold Toroidal.reset.
  repeat match goal with
  | |- context [Toroidal.generateObstacles ?n ?s rs] =>
      let E := fresh "E" in
      let g1 := fresh "g1" in
      let rs1 := fresh "rs1" in
      pose proof (generateObstacles_only_obstacles n s rs) as E;
      destruct (Toroidal.generateObstacles n s rs) as [g1 rs1] eqn:?G;
      cbn [fst] in E
  end.
  match type of G with
  | Toroidal.generateObstacles ?n' ?s' rs = _ =>
      match type of G0 with
      | Toroidal.generateObstacles ?n ?s rs = _ =>
          assert (R : Toroidal.obstacles
                        (fst (Toroidal.generateObstacles n' s' rs))
                      = Toroidal.obstacles
                          (fst (Toroidal.generateObstacles n s rs)) /\
                      snd (Toroidal.generateObstacles n' s' rs)
                      = snd (Toroidal.generateObstacles n s rs))
            by (apply generateObstacles_reads; cbn; congruence)
      end
  end.
  rewrite G, G0 in R. cbn [fst snd] in R. destruct R as [Ro Rs].
  rewrite Rs. apply placeFood_food_reads.
  - rewrite E, E0. cbn. congruence.
  - rewrite E, E0. cbn. congruence.
  - rewrite E, E0. cbn. now rewrite Ec, Er.
  - exact Ro.
Qed.

Lemma reset_reads_config (g g' : Toroidal.Game) (rs : Rng) :
  Toroidal.cols g' = Toroidal.cols g ->
  Toroidal.rows g' = Toroidal.rows g ->
  Toroidal.obstacleCount g' = Toroidal.obstacleCount g ->
  Toroidal.reset g' rs = Toroidal.reset g rs.
Proof.
  intros Ec Er En.
  assert (Eo : Toroidal.obstacles (Toroidal.reset g' rs)
               = Toroidal.obstacles (Toroidal.reset g rs)).
  { rewrite !reset_obstacles, !reset_snake. now rewrite Ec, Er, En. }
  pose proof (reset_food_reads g g' rs Ec Er En) as Ef.
  etransitivity; [apply reset_shape |].
  rewrite Ec, Er, En, Eo, Ef. symmetry. apply reset_shape.
Qed.

(** X13.  [reset] reads nothing of the round it ends: whatever calls came
    before, it gives the state a reset at the start would have given with
    the same random choices, which is also the state of a game constructed
    anew with the same options. *)
Theorem reset_forgets_the_round (g : Toroidal.Game)
        (calls : list Toroidal.Call) (rs : Rng) :
  Toroidal.reset (Toroidal.run calls g) rs = Toroidal.reset g rs /\
  (0 <= Toroidal.obstacleCount g ->
   Toroidal.reset (Toroidal.run calls g) rs
   = Toroidal.new_Game (Some (Toroidal.cols g)) (Some (Toroidal.rows g))
                       (Some (Toroidal.obstacleCount g)) rs).
Proof.
  destruct (run_config calls g) as (Ec & Er & En).
  split; [now apply reset_reads_config |].
  intros Hn. unfold Toroidal.new_Game. apply reset_reads_config.
  - exact Ec.
  - exact Er.
  - rewrite En. cbn [Toroidal.obstacleCount]. lia.
Qed.

Lemma reset_forgets_the_round_witness :
  Toroidal.reset
    (Toroidal.run [Toroidal.CallStep 1; Toroidal.CallSetDirection (pt 0 1);
                   Toroidal.CallStep 2] blocked_game) (fun k => (2 * k)%nat)
  = Toroidal.new_Game (Some 5) (Some 5) (Some 1) (fun k => (2 * k)%nat).
Proof.
  apply (proj2 (reset_forgets_the_round blocked_game
                  [Toroidal.CallStep 1; Toroidal.CallSetDirection (pt 0 1);
                   Toroidal.CallStep 2] (fun k => (2 * k)%nat))).
  cbn. lia.
Defined.

(** X14.  Nothing but [reset] touches the obstacles: along any sequence of
    steps and direction requests they stay the ones the round started with,
    and no call at all changes the grid size or the configured obstacle
    count. *)
Theorem obstacles_fixed_in_round (g : Toroidal.Game)
        (calls : list Toroidal.Call) :
  (no_reset calls ->
   Toroidal.obstacles (Toroidal.run calls g) = Toroidal.obstacles g) /\
  Toroidal.cols (Toroidal.run calls g) = Toroidal.cols g /\
  Toroidal.rows (Toroidal.run calls g) = Toroidal.rows g /\
  Toroidal.obstacleCount (Toroidal.run calls g) = Toroidal.obstacleCount g.
Proof.
  split; [| apply run_config].
  unfold no_reset. revert g.
  induction calls as [| c calls IH]; intros g Hn; [reflexivity |].
  cbn [existsb] in Hn. apply orb_false_iff in Hn. destruct Hn as [Hc Hn].
  rewrite run_cons, (IH _ Hn).
  destruct c as [rs | dir | r]; [discriminate Hc | |]; cbn [Toroidal.perform].
  - rewrite setDirection_cases. now destruct (accepted g dir).
  - now destruct (step_config g r) as (_ & _ & _ & ->).
Qed.

Lemma obstacles_fixed_in_round_witness :
  Toroidal.obstacles
    (Toroidal.run [Toroidal.CallStep 1; Toroidal.CallSetDirection (pt 0 1);
                   Toroidal.CallStep 2] blocked_game)
  = [pt 3 2].
Proof.
  apply (proj1 (obstacles_fixed_in_round blocked_game
                  [Toroidal.CallStep 1; Toroidal.CallSetDirection (pt 0 1);
                   Toroidal.CallStep 2])).
  reflexivity.
Defined.

(** ** A board filled at the start *)

(** X15.  On a grid of at least 4 columns and 1 row, a configured obstacle
    count of [cols * rows - 3] or more fills every cell the snake leaves:
    the round then starts without food, and running. *)
Theorem reset_on_full_board (g : Toroidal.Game) (rs : Rng) :
  4 <= Toroidal.cols g -> 1 <= Toroidal.rows g ->
  Toroidal.cols g * Toroidal.rows g - 3 <= Toroidal.obstacleCount g ->
  Toroidal.food (Toroidal.reset g rs) = None /\
  Toroidal.over (Toroidal.reset g rs) = false /\
  (forall c, in_grid (Toroidal.cols g) (Toroidal.rows g) c ->
             In c (Toroidal.snake (Toroidal.reset g rs)) \/
             In c (Toroidal.obstacles (Toroidal.reset g rs))).
Proof.
  intros Hc Hr Hn.
  set (s := Toroidal.reset g rs).
  set (free := freeCells (Toroidal.cols g) (Toroidal.rows g)
                         (Toroidal.snake s)).
  assert (Hobs : Toroidal.obstacles s
                 = fst (Toroidal.pickObstacles
                          (Z.to_nat (Toroidal.obstacleCount g)) free rs []))
    by apply reset_obstacles.
  assert (Hlen : (length free + 3 = Z.to_nat (Toroidal.cols g)
                                    * Z.to_nat (Toroidal.rows g))%nat).
  { pose proof (length_freeCells (Toroidal.cols g) (Toroidal.rows g) _
                  (reset_snake_NoDup g rs) (reset_snake_in_grid g rs Hc Hr))
      as L.
    rewrite reset_snake in L at 2. cbn [length] in L. exact L. }
  assert (Hall : incl free (Toroidal.obstacles s)).
  { apply NoDup_length_incl.
    - rewrite Hobs. apply pickObstacles_NoDup;
        [constructor | apply NoDup_freeCells | intros p []].
    - rewrite Hobs, pickObstacles_length. cbn [length].
      assert (Z.of_nat (Z.to_nat (Toroidal.cols g)
                        * Z.to_nat (Toroidal.rows g))
              = Toroidal.cols g * Toroidal.rows g)
        by (rewrite Nat2Z.inj_mul; lia).
      lia.
    - intros p Hp. rewrite Hobs in Hp. apply pickObstacles_sub in Hp.
      now destruct Hp as [[] | Hp]. }
  assert (Hcover : forall c,
             in_grid (Toroidal.cols g) (Toroidal.rows g) c ->
             In c (Toroidal.snake s) \/ In c (Toroidal.obstacles s)).
  { intros c Hin. destruct (has (Toroidal.snake s) c) eqn:Hs.
    - left. now apply has_In.
    - right. apply Hall. apply In_freeCells. split; [exact Hin |].
      now apply has_false. }
  split; [| split; [unfold s; now rewrite reset_shape | exact Hcover]].
  destruct (reset_ends_with_placeFood g rs) as (g1 & r & E & Es & Eo & Ec & Er).
  fold s in E, Es, Eo. rewrite E. apply placeFood_none.
  intros c (Hin & Hsn & Hob). rewrite Ec, Er in Hin. rewrite Es in Hsn.
  rewrite Eo in Hob. destruct (Hcover c Hin); contradiction.
Qed.

Lemma reset_on_full_board_witness :
  Toroidal.food
    (Toroidal.reset
       (Toroidal.mkGame 4 2 5 [] (pt 0 0) (pt 0 0) None 0 false 0 [])
       (fun k => (3 * k)%nat)) = None.
Proof.
  apply (reset_on_full_board
           (Toroidal.mkGame 4 2 5 [] (pt 0 0) (pt 0 0) None 0 false 0 [])
           (fun k => (3 * k)%nat)); cbn; lia.
Defined.

(** ** The copies agree *)

Lemma js_step_state (g : Toroidal.Game) (r : nat) :
  snd (ToroidalJs.step g r) = snd (Toroidal.step g r).
Proof.
  unfold ToroidalJs.step, Toroidal.step.
  destruct (Toroidal.over g); [reflexivity |].
  destruct (Toroidal.snake (Toroidal.set_direction _ g)) as [| head rest];
    [reflexivity |].
  destruct (existsb _ (Toroidal.obstacles _)); [reflexivity |].
  destruct (existsb _ (head :: rest)); [reflexivity |].
  destruct (Toroidal.eat _ _ r) as [a g2]. reflexivity.
Qed.

Lemma js_step_result (g : Toroidal.Game) (r : nat) :
  fst (ToroidalJs.step g r) = completion_map to_js (fst (Toroidal.step g r)).
Proof.
  unfold ToroidalJs.step, Toroidal.step.
  destruct (Toroidal.over g); [reflexivity |].
  destruct (Toroidal.snake (Toroidal.set_direction _ g)) as [| head rest];
    [reflexivity |].
  destruct (existsb _ (Toroidal.obstacles _)); [reflexivity |].
  destruct (existsb _ (head :: rest)); [reflexivity |].
  destruct (Toroidal.eat _ _ r) as [a g2]. reflexivity.
Qed.

(** X16.  The JavaScript copy of the engine takes the same step as the
    TypeScript class: the same state afterwards, the same [died] and
    [reason], and the same [ate] whenever the step is not fatal (a fatal
    result carries no [ate]). *)
Theorem js_copy_takes_the_same_step (g : Toroidal.Game) (r : nat) :
  ToroidalJs.step g r
  = (completion_map to_js (fst (Toroidal.step g r)),
     snd (Toroidal.step g r)).
Proof.
  rewrite (surjective_pairing (ToroidalJs.step g r)).
  now rewrite js_step_state, js_step_result.
Qed.

Lemma placeFood_agrees (g : Toroidal.Game) (r : nat) :
  Toroidal.obstacles g = [] ->
  Bounded.placeFood (to_bounded g) r = to_bounded (Toroidal.placeFood g r).
Proof.
  intros Hobs. unfold Bounded.placeFood, Toroidal.placeFood.
  cbn [to_bounded Bounded.cols Bounded.rows Bounded.snake].
  rewrite Hobs, app_nil_r. destruct (freeCells _ _ _); reflexivity.
Qed.

Lemma eat_agrees (g : Toroidal.Game) (nh : Point) (r : nat) :
  Toroidal.obstacles g = [] ->
  Bounded.eat (to_bounded g) nh r
  = (fst (Toroidal.eat g nh r), to_bounded (snd (Toroidal.eat g nh r))).
Proof.
  intros Hobs. unfold Bounded.eat, Toroidal.eat.
  cbn [to_bounded Bounded.food]. destruct (Toroidal.food g) as [f |];
    [| reflexivity].
  destruct ((x nh =? x f) && (y nh =? y f)); [| reflexivity].
  cbn [fst snd]. rewrite <- placeFood_agrees by exact Hobs. reflexivity.
Qed.

Lemma grow_agrees (g : Toroidal.Game) :
  Bounded.grow (to_bounded g) = to_bounded (Toroidal.grow g).
Proof.
  unfold Bounded.grow, Toroidal.grow. cbn [to_bounded Bounded.growAmount].
  now destruct (0 <? Toroidal.growAmount g).
Qed.

Lemma wrap_inside (a n : Z) : 0 <= a < n -> wrap a n = a.
Proof.
  intros Ha. rewrite wrap_mod by lia. now apply Z.mod_small.
Qed.

(** X17.  Away from the walls the two engines are the same: on a board
    without obstacles, when the next head before any wrap lies inside the
    grid, the bounded engine returns the result of the toroidal one and
    ends in the same state. *)
Theorem bounded_agrees_inside (g : Toroidal.Game) (r : nat) :
  Toroidal.obstacles g = [] ->
  (forall head rest,
      Toroidal.snake g = head :: rest ->
      in_grid (Toroidal.cols g) (Toroidal.rows g)
              (candidate_bounded (to_bounded g) head)) ->
  Bounded.step (to_bounded g) r
  = (fst (Toroidal.step g r), to_bounded (snd (Toroidal.step g r))).
Proof.
  intros Hobs Hin. destruct (Toroidal.over g) eqn:Ho.
  { rewrite (step_when_over g r Ho).
    now rewrite (bounded_step_when_over (to_bounded g) r Ho). }
  destruct (Toroidal.snake g) as [| head rest] eqn:Hs.
  { rewrite (step_no_head g r Ho Hs). unfold Bounded.step.
    cbn [to_bounded Bounded.over Bounded.snake Bounded.set_direction].
    now rewrite Ho, Hs. }
  specialize (Hin head rest eq_refl).
  assert (Hc : candidate g head = candidate_bounded (to_bounded g) head).
  { destruct Hin as [Hx Hy].
    unfold candidate, candidate_bounded, Toroidal.newHead, Bounded.newHead
      in *.
    cbn [x y to_bounded Toroidal.cols Toroidal.rows Toroidal.direction
         Toroidal.set_direction Bounded.direction Bounded.nextDirection
         Bounded.set_direction] in *.
    now rewrite !wrap_inside. }
  rewrite (step_running g r head rest Ho Hs).
  rewrite (bounded_step_running (to_bounded g) r head rest Ho Hs).
  cbn zeta. rewrite <- Hc.
  assert (Hout : Bounded.outside (to_bounded g) (candidate g head) = false).
  { destruct (Bounded.outside (to_bounded g) (candidate g head)) eqn:E;
      [| reflexivity].
    apply outside_spec in E. rewrite Hc in E. contradiction. }
  rewrite Hout, Hobs. cbn [has existsb]. cbn [to_bounded Bounded.snake].
  destruct (has (Toroidal.snake g) (candidate g head)); [reflexivity |].
  cbn [fst snd].
  change (Bounded.set_snake (candidate g head :: Toroidal.snake g)
            (Bounded.set_direction (Bounded.nextDirection (to_bounded g))
               (to_bounded g)))
    with (to_bounded
            (Toroidal.set_snake (candidate g head :: Toroidal.snake g)
               (Toroidal.set_direction (Toroidal.nextDirection g) g))).
  rewrite eat_agrees by exact Hobs. cbn [fst snd].
  now rewrite grow_agrees.
Qed.

Lemma bounded_agrees_inside_witness :
  let g := Toroidal.set_nextDirection (pt 0 1) edge_game in
  Bounded.step (to_bounded g) 3
  = (fst (Toroidal.step g 3), to_bounded (snd (Toroidal.step g 3))).
Proof.
  cbv zeta.
  apply (bounded_agrees_inside
           (Toroidal.set_nextDirection (pt 0 1) edge_game) 3%nat).
  - reflexivity.
  - intros head rest E. injection E as <- _. vm_compute.
    repeat split; discriminate.
Defined.

(** ** The bounded engine keeps the snake inside the walls *)

Section BoundedRound.

Import Bounded.

Lemma bounded_placeFood_only_food (g : Game) (r : nat) :
  placeFood g r = set_food (food (placeFood g r)) g.
Proof. unfold placeFood. destruct (freeCells _ _ _); reflexivity. Qed.

Lemma bounded_eat_keeps (g : Game) (nh : Point) (r : nat) :
  snake (snd (eat g nh r)) = snake g /\
  cols (snd (eat g nh r)) = cols g /\
  rows (snd (eat g nh r)) = rows g.
Proof.
  unfold eat. destruct (food g) as [f |]; [| now repeat split].
  destruct ((x nh =? x f) && (y nh =? y f)); [| now repeat split].
  cbn [snd]. rewrite bounded_placeFood_only_food. now repeat split.
Qed.

Lemma bounded_grow_keeps (g : Game) (p : Point) :
  (In p (snake (grow g)) -> In p (snake g)) /\
  cols (grow g) = cols g /\ rows (grow g) = rows g.
Proof.
  unfold grow. destruct (0 <? growAmount g); cbn; repeat split; trivial.
  apply In_removelast.
Qed.

Lemma bounded_step_no_head (g : Game) (r : nat) :
  over g = false -> snake g = [] ->
  step g r = (Throws, set_direction (nextDirection g) g).
Proof.
  intros Ho Hs. unfold step. rewrite Ho. cbn [snake set_direction].
  now rewrite Hs.
Qed.

Lemma bounded_step_config (g : Game) (r : nat) :
  cols (snd (step g r)) = cols g /\ rows (snd (step g r)) = rows g.
Proof.
  destruct (over g) eqn:Ho.
  { now rewrite (bounded_step_when_over g r Ho). }
  destruct (snake g) as [| head rest] eqn:Hs.
  { now rewrite (bounded_step_no_head g r Ho Hs). }
  rewrite (bounded_step_running g r head rest Ho Hs). cbn zeta.
  destruct (outside g _); [now split |].
  destruct (has (snake g) _); [now split |]. cbn [snd].
  match goal with |- context [eat ?s ?c r] =>
    destruct (bounded_eat_keeps s c r) as (_ & Ec & Er);
    destruct (bounded_grow_keeps (snd (eat s c r)) c) as (_ & Gc & Gr)
  end.
  rewrite Gc, Gr, Ec, Er. now split.
Qed.

Lemma inside_spec (g : Game) (c : Point) :
  outside g c = false <-> in_grid (cols g) (rows g) c.
Proof.
  unfold outside, in_grid.
  rewrite !orb_false_iff, !Z.ltb_ge, !Z.leb_gt. lia.
Qed.

(** The segments after a step of the bounded engine are segments from
    before it, or a cell inside the walls. *)
Lemma bounded_step_snake_sub (g : Game) (r : nat) (p : Point) :
  In p (snake (snd (step g r))) ->
  In p (snake g) \/ in_grid (cols g) (rows g) p.
Proof.
  destruct (over g) eqn:Ho.
  { rewrite (bounded_step_when_over g r Ho). now left. }
  destruct (snake g) as [| head rest] eqn:Hs.
  { rewrite (bounded_step_no_head g r Ho Hs). cbn. rewrite Hs. now left. }
  rewrite (bounded_step_running g r head rest Ho Hs). cbn zeta.
  destruct (outside g (candidate_bounded g head)) eqn:Hout.
  { cbn. rewrite Hs. now left. }
  destruct (has (snake g) _).
  { cbn. rewrite Hs. now left. }
  cbn [snd]. intros Hp.
  match type of Hp with context [eat ?s ?c r] =>
    destruct (bounded_eat_keeps s c r) as (Es & _);
    destruct (bounded_grow_keeps (snd (eat s c r)) p) as (Gs & _)
  end.
  apply Gs in Hp. rewrite Es in Hp. cbn [snake set_snake set_direction] in Hp.
  rewrite Hs in Hp.
  destruct Hp as [<- | Hp]; [right | now left].
  now apply inside_spec.
Qed.

Lemma bounded_reset_shape (g : Game) (r : nat) :
  reset g r
  = mkGame (cols g) (rows g)
           [ pt (cols g / 2) (rows g / 2);
             pt (cols g / 2 - 1) (rows g / 2);
             pt (cols g / 2 - 2) (rows g / 2) ]
           (pt 1 0) (pt 1 0) (food (reset g r)) 0 false 0.
Proof.
  unfold reset. rewrite bounded_placeFood_only_food. reflexivity.
Qed.

Lemma bounded_reset_inside (g : Game) (r : nat) (p : Point) :
  4 <= cols g -> 1 <= rows g ->
  In p (snake (reset g r)) -> in_grid (cols g) (rows g) p.
Proof.
  intros Hc Hr. rewrite bounded_reset_shape. cbn [snake]. unfold in_grid.
  pose proof (Z.div_mod (cols g) 2). pose proof (Z.mod_pos_bound (cols g) 2).
  pose proof (Z.div_mod (rows g) 2). pose proof (Z.mod_pos_bound (rows g) 2).
  intros Hp. repeat (destruct Hp as [<- | Hp]; [cbn; lia |]). destruct Hp.
Qed.

Lemma bounded_setDirection_cases (g : Game) (dir : Point) :
  setDirection g dir = g \/ setDirection g dir = set_nextDirection dir g.
Proof. unfold setDirection. destruct (_ && _); [now left | now right]. Qed.

Lemma bounded_perform_config (g : Game) (c : BoundedCall) :
  cols (bounded_perform g c) = cols g /\
  rows (bounded_perform g c) = rows g.
Proof.
  destruct c as [r | dir | r]; cbn [bounded_perform].
  - rewrite bounded_reset_shape. now split.
  - destruct (bounded_setDirection_cases g dir) as [-> | ->]; now split.
  - apply bounded_step_config.
Qed.

Lemma bounded_perform_inside (g : Game) (c : BoundedCall) :
  4 <= cols g -> 1 <= rows g ->
  (forall p, In p (snake g) -> in_grid (cols g) (rows g) p) ->
  forall p, In p (snake (bounded_perform g c)) ->
            in_grid (cols g) (rows g) p.
Proof.
  intros Hc Hr Hin p. destruct c as [r | dir | r]; cbn [bounded_perform].
  - now apply bounded_reset_inside.
  - destruct (bounded_setDirection_cases g dir) as [-> | ->]; apply Hin.
  - intros Hp. apply bounded_step_snake_sub in Hp.
    destruct Hp as [Hp | Hp]; [now apply Hin | exact Hp].
Qed.

End BoundedRound.

(** X18.  In the bounded engine, on a grid of at least 4 columns and 1
    row, every segment of the snake lies inside the walls in every state
    reached from a reset: a step that would leave the grid ends the game
    and does not move the snake. *)
Theorem bounded_snake_stays_inside (g : Bounded.Game) (r0 : nat)
        (calls : list BoundedCall) :
  4 <= Bounded.cols g -> 1 <= Bounded.rows g ->
  forall p,
    In p (Bounded.snake (bounded_run calls (Bounded.reset g r0))) ->
    in_grid (Bounded.cols g) (Bounded.rows g) p.
Proof.
  intros Hc Hr.
  assert (H : forall s,
             Bounded.cols s = Bounded.cols g ->
             Bounded.rows s = Bounded.rows g ->
             (forall p, In p (Bounded.snake s) ->
                        in_grid (Bounded.cols g) (Bounded.rows g) p) ->
             forall p, In p (Bounded.snake (bounded_run calls s)) ->
                       in_grid (Bounded.cols g) (Bounded.rows g) p).
  { induction calls as [| c calls IH]; intros s Ec Er Hs; [exact Hs |].
    change (bounded_run (c :: calls) s)
      with (bounded_run calls (bounded_perform s c)).
    destruct (bounded_perform_config s c) as (Ec' & Er').
    apply IH; [congruence | congruence |].
    rewrite <- Ec, <- Er. apply bounded_perform_inside; try lia.
    now rewrite Ec, Er. }
  apply (H (Bounded.reset g r0)).
  - now rewrite bounded_reset_shape.
  - now rewrite bounded_reset_shape.
  - intros p. now apply bounded_reset_inside.
Qed.

Lemma bounded_snake_stays_inside_witness :
  in_grid 10 10 (pt 7 5).
Proof.
  apply (bounded_snake_stays_inside left_edge_game 3
           [BStep 0; BStep 1; BSetDirection (pt 0 1); BStep 2]).
  - cbn. lia.
  - cbn. lia.
  - vm_compute. tauto.
Defined.

(** ** The outcome of a step, case by case *)

(** X19.  The result of a step of a running game says exactly what the
    candidate head met: reason [obstacle] if and only if it lies on an
    obstacle, reason [self] if and only if it lies on no obstacle but on a
    segment, [died = false] if and only if it lies on neither, and
    [ate = true] if and only if, in addition, it is the food cell. *)
Theorem step_outcome (g : Toroidal.Game) (r : nat) (head : Point)
        (rest : list Point) :
  grid_ok g ->
  Toroidal.over g = false ->
  Toroidal.snake g = head :: rest ->
  let c := candidate g head in
  exists res g',
    Toroidal.step g r = (Returns res, g') /\
    (reason res = Some obstacle <-> In c (Toroidal.obstacles g)) /\
    (reason res = Some self <->
     ~ In c (Toroidal.obstacles g) /\ In c (Toroidal.snake g)) /\
    (died res = false <->
     ~ In c (Toroidal.obstacles g) /\ ~ In c (Toroidal.snake g)) /\
    (ate res = true <->
     ~ In c (Toroidal.obstacles g) /\ ~ In c (Toroidal.snake g) /\
     Toroidal.food g = Some c).
Proof.
  intros _ Ho Hs c. rewrite (step_running g r head rest Ho Hs). cbn zeta.
  fold c.
  destruct (has (Toroidal.obstacles g) c) eqn:Hco.
  { apply has_In in Hco. do 2 eexists. split; [reflexivity |]. cbn.
    repeat split; try tauto; try discriminate; intros; tauto. }
  apply has_false in Hco.
  destruct (has (Toroidal.snake g) c) eqn:Hcs.
  { apply has_In in Hcs. do 2 eexists. split; [reflexivity |]. cbn.
    repeat split; try tauto; try discriminate; intros; tauto. }
  apply has_false in Hcs.
  do 2 eexists. split; [reflexivity |]. cbn [reason died ate].
  split; [split; [discriminate | contradiction] |].
  split; [split; [discriminate | tauto] |].
  split; [tauto |].
  unfold Toroidal.eat.
  cbn [Toroidal.food Toroidal.set_snake Toroidal.set_direction].
  destruct (Toroidal.food g) as [f |].
  - destruct ((x c =? x f) && (y c =? y f)) eqn:E; cbn [fst].
    + assert (c = f) as <- by (now apply same_cell_eq). tauto.
    + split; [discriminate |]. intros (_ & _ & Ef). injection Ef as <-.
      unfold same_cell in E. now rewrite !Z.eqb_refl in E.
  - cbn [fst]. split; [discriminate |]. intros (_ & _ & Ef). discriminate.
Qed.

Lemma step_outcome_witness :
  exists res g',
    Toroidal.step edge_game 0 = (Returns res, g') /\
    (reason res = Some obstacle <->
     In (candidate edge_game (pt 23 7)) (Toroidal.obstacles edge_game)) /\
    (reason res = Some self <->
     ~ In (candidate edge_game (pt 23 7)) (Toroidal.obstacles edge_game) /\
     In (candidate edge_game (pt 23 7)) (Toroidal.snake edge_game)) /\
    (died res = false <->
     ~ In (candidate edge_game (pt 23 7)) (Toroidal.obstacles edge_game) /\
     ~ In (candidate edge_game (pt 23 7)) (Toroidal.snake edge_game)) /\
    (ate res = true <->
     ~ In (candidate edge_game (pt 23 7)) (Toroidal.obstacles edge_game) /\
     ~ In (candidate edge_game (pt 23 7)) (Toroidal.snake edge_game) /\
     Toroidal.food edge_game = Some (candidate edge_game (pt 23 7))).
Proof.
  apply (step_outcome edge_game 0%nat (pt 23 7) [pt 22 7; pt 21 7]).
  - split; reflexivity.
  - reflexivity.
  - reflexivity.
Defined.

(** X20.  A step that is not fatal, in a game without pending growth, moves
    the snake the way Snake is played: the candidate becomes the head, every
    segment takes the place of the one before it, and the last one is
    dropped unless the step ate. *)
Theorem step_moves_the_snake (g : Toroidal.Game) (r : nat) (head : Point)
        (rest : list Point) :
  grid_ok g ->
  Toroidal.growAmount g = 0 ->
  Toroidal.over g = false ->
  Toroidal.snake g = head :: rest ->
  ~ In (candidate g head) (Toroidal.obstacles g) ->
  ~ In (candidate g head) (Toroidal.snake g) ->
  exists a,
    fst (Toroidal.step g r) = Returns (mkResult a false None) /\
    Toroidal.snake (snd (Toroidal.step g r))
    = candidate g head
        :: (if a then Toroidal.snake g else removelast (Toroidal.snake g)).
Proof.
  intros _ Hz Ho Hs Hco Hcs.
  apply has_false in Hco. apply has_false in Hcs.
  destruct (step_move g r head rest Ho Hs Hz Hco Hcs) as (a & Hres & Hsn & _).
  cbv zeta in Hsn. exists a. split; [exact Hres |]. rewrite Hsn.
  destruct a; [reflexivity |]. now rewrite Hs.
Qed.

Lemma step_moves_the_snake_witness :
  exists a,
    fst (Toroidal.step edge_game 0) = Returns (mkResult a false None) /\
    Toroidal.snake (snd (Toroidal.step edge_game 0))
    = candidate edge_game (pt 23 7)
        :: (if a then Toroidal.snake edge_game
            else removelast (Toroidal.snake edge_game)).
Proof.
  apply (step_moves_the_snake edge_game 0%nat (pt 23 7) [pt 22 7; pt 21 7]).
  - split; reflexivity.
  - reflexivity.
  - reflexivity.
  - reflexivity.
  - intros [].
  - vm_compute. intros [H | [H | [H | []]]]; discriminate H.
Defined.

(** ** The constructor *)

(** X21.  A game constructed on a grid of at least 4 columns and 1 row
    starts running with score 0 and with as many obstacles as asked for, a
    negative count counting as 0 and the count left out as
    [floor (cols * rows / 50)], but never more than [cols * rows - 3].  With
    all options left out that is a 24 x 24 grid with exactly 11
    obstacles. *)
Theorem new_Game_obstacles (c r n : option Z) (rs : Rng) :
  let cols := match c with Some v => v | None => 24 end in
  let rows := match r with Some v => v | None => 24 end in
  let count := match n with Some v => v | None => (cols * rows) / 50 end in
  let g := Toroidal.new_Game c r n rs in
  (4 <= cols -> 1 <= rows ->
   Toroidal.cols g = cols /\ Toroidal.rows g = rows /\
   Toroidal.over g = false /\ Toroidal.score g = 0 /\
   Z.of_nat (length (Toroidal.obstacles g))
   = Z.min (Z.max 0 count) (cols * rows - 3)) /\
  (c = None -> r = None -> n = None ->
   Toroidal.cols g = 24 /\ Toroidal.rows g = 24 /\
   length (Toroidal.obstacles g) = 11%nat).
Proof.
  cbv zeta.
  assert (Main :
    4 <= match c with Some v => v | None => 24 end ->
    1 <= match r with Some v => v | None => 24 end ->
    Toroidal.cols (Toroidal.new_Game c r n rs)
    = match c with Some v => v | None => 24 end /\
    Toroidal.rows (Toroidal.new_Game c r n rs)
    = match r with Some v => v | None => 24 end /\
    Toroidal.over (Toroidal.new_Game c r n rs) = false /\
    Toroidal.score (Toroidal.new_Game c r n rs) = 0 /\
    Z.of_nat (length (Toroidal.obstacles (Toroidal.new_Game c r n rs)))
    = Z.min (Z.max 0 match n with
                     | Some v => v
                     | None => (match c with Some v => v | None => 24 end
                                * match r with Some v => v | None => 24 end)
                               / 50
                     end)
            (match c with Some v => v | None => 24 end
             * match r with Some v => v | None => 24 end - 3)).
  { intros Hc Hr. unfold Toroidal.new_Game.
    match goal with |- context [Toroidal.reset ?g0 rs] => set (g0' := g0) end.
    assert (E : length (Toroidal.obstacles (Toroidal.reset g0' rs))
                = Nat.min (Z.to_nat (Toroidal.obstacleCount g0'))
                          (Z.to_nat (Toroidal.cols g0')
                           * Z.to_nat (Toroidal.rows g0') - 3))
      by (apply reset_obstacles_length; assumption).
    rewrite E. rewrite (reset_shape g0' rs).
    cbn [Toroidal.cols Toroidal.rows Toroidal.over Toroidal.score
         Toroidal.obstacleCount g0'].
    repeat (split; [reflexivity |]).
    set (cc := match c with Some v => v | None => 24 end) in *.
    set (rr := match r with Some v => v | None => 24 end) in *.
    assert (Hprod : Z.of_nat (Z.to_nat cc * Z.to_nat rr) = cc * rr)
      by (rewrite Nat2Z.inj_mul; lia).
    lia. }
  split; [exact Main |].
  intros -> -> ->. destruct Main as (Ec & Er & _ & _ & El); [lia | lia |].
  repeat split; [exact Ec | exact Er |].
  change (Z.min (Z.max 0 (24 * 24 / 50)) (24 * 24 - 3)) with 11 in El. lia.
Qed.

Lemma new_Game_obstacles_witness :
  length (Toroidal.obstacles
            (Toroidal.new_Game None None None (fun k => (13 * k)%nat)))
  = 11%nat.
Proof.
  apply (proj2 (new_Game_obstacles None None None (fun k => (13 * k)%nat)));
    reflexivity.
Defined.

(** ** The tick of the game loop *)

(** The fatal results of the class have [ate = false]. *)
Lemma fatal_result_has_not_eaten (g : Toroidal.Game) (r : nat)
      (res : StepResult) :
  fst (Toroidal.step g r) = Returns res -> died res = true -> ate res = false.
Proof.
  step_cases g r; cbn [fst]; intros E; try discriminate E;
    injection E as <-; cbn; congruence.
Qed.

Lemma stepTick_game (u : Main.Ui) (r : nat) :
  Main.game (snd (Main.stepTick u r))
  = snd (Toroidal.step
           (Toroidal.setDirection (Main.game u) (Main.input_dir u)) r).
Proof.
  unfold Main.stepTick. rewrite <- js_step_state.
  destruct (ToroidalJs.step _ r) as [[res |] g']; [| reflexivity].
  now destruct (ToroidalJs.died_js res).
Qed.

(** X22.  A tick of the game loop of [main.js], started with the queued
    direction equal to the current one (as every tick leaves it), turns a
    running snake to the direction of the last key, unless that is the
    reversal of the current direction: then the snake keeps its direction.
    After the tick the queued direction is again the current one. *)
Theorem stepTick_turns_or_keeps (u : Main.Ui) (r : nat) :
  grid_ok (Main.game u) ->
  Toroidal.over (Main.game u) = false ->
  Toroidal.nextDirection (Main.game u) = Toroidal.direction (Main.game u) ->
  let g' := Main.game (snd (Main.stepTick u r)) in
  Toroidal.direction g'
  = (if same_cell (Main.input_dir u)
                  (reversed (Toroidal.direction (Main.game u)))
     then Toroidal.direction (Main.game u)
     else Main.input_dir u) /\
  Toroidal.nextDirection g' = Toroidal.direction g'.
Proof.
  intros _ Ho Hq. cbv zeta. rewrite stepTick_game.
  set (g := Main.game u) in *. set (dir := Main.input_dir u).
  assert (Ho' : Toroidal.over (Toroidal.setDirection g dir) = false).
  { rewrite setDirection_cases. now destruct (accepted g dir). }
  assert (Hn : Toroidal.nextDirection (Toroidal.setDirection g dir)
               = if same_cell dir (reversed (Toroidal.direction g))
                 then Toroidal.direction g else dir).
  { rewrite setDirection_cases. unfold accepted.
    now destruct (same_cell dir (reversed (Toroidal.direction g))). }
  rewrite <- Hn.
  pose proof (step_commits_direction _ r Ho') as Hd. rewrite Hd.
  split; [reflexivity |].
  set (s := Toroidal.setDirection g dir) in *. clearbody s.
  destruct (Toroidal.snake s) as [| head rest] eqn:Hs.
  { now rewrite (step_no_head s r Ho' Hs). }
  rewrite (step_running s r head rest Ho' Hs). cbn zeta.
  destruct (has (Toroidal.obstacles s) _); [reflexivity |].
  destruct (has (Toroidal.snake s) _); [reflexivity |]. cbn [snd].
  match goal with |- context [Toroidal.eat ?t ?c r] =>
    destruct (eat_effect t c r) as (_ & _ & _ & _ & _ & _ & _ & _ & En & _);
    destruct (grow_effect (snd (Toroidal.eat t c r)))
      as (_ & _ & _ & _ & _ & _ & _ & Gn & _)
  end.
  now rewrite Gn, En.
Qed.

Lemma stepTick_turns_or_keeps_witness :
  Toroidal.direction (Main.game (snd (Main.stepTick Main.fresh_page 0)))
  = pt 0 (-1) /\
  Toroidal.nextDirection (Main.game (snd (Main.stepTick Main.fresh_page 0)))
  = Toroidal.direction (Main.game (snd (Main.stepTick Main.fresh_page 0))).
Proof.
  apply (stepTick_turns_or_keeps Main.fresh_page 0%nat).
  - split; reflexivity.
  - reflexivity.
  - reflexivity.
Defined.

Section Page.

Import String.

(** X23.  A tick keeps the page in step with the game: if the score text
    showed the score before the tick it shows the score after it; the loop
    keeps running exactly when it was running and the step was not fatal,
    and after a fatal step the button reads Restart. *)
Theorem stepTick_keeps_page_in_sync (u : Main.Ui) (r : nat) :
  grid_ok (Main.game u) ->
  display_in_sync u ->
  let s := Toroidal.setDirection (Main.game u) (Main.input_dir u) in
  let u' := snd (Main.stepTick u r) in
  display_in_sync u' /\
  forall res,
    fst (Toroidal.step s r) = Returns res ->
    fst (Main.stepTick u r) = Returns tt /\
    Main.running u' = Main.running u && negb (died res) /\
    (died res = true -> Main.pauseText u' = "Restart"%string) /\
    (died res = false -> Main.pauseText u' = Main.pauseText u).
Proof.
  intros _ Hsync. cbv zeta. unfold display_in_sync in *.
  set (s := Toroidal.setDirection (Main.game u) (Main.input_dir u)).
  assert (Hs : Toroidal.score s = Toroidal.score (Main.game u)).
  { unfold s. rewrite setDirection_cases. now destruct (accepted _ _). }
  pose proof (step_score s r) as Hsc.
  pose proof (js_step_state s r) as Hst.
  pose proof (js_step_result s r) as Hre.
  pose proof (fatal_result_has_not_eaten s r) as Hfat.
  unfold Main.stepTick. fold s.
  destruct (ToroidalJs.step s r) as [cjs g'].
  cbn [fst snd] in Hst, Hre. subst g'.
  destruct (Toroidal.step s r) as [c g'']. cbn [fst snd] in *.
  destruct c as [res |]; cbn [completion_map] in Hre; subst cjs.
  - unfold to_js. cbn [ToroidalJs.ate_js ToroidalJs.died_js meal] in *.
    specialize (Hfat res eq_refl).
    destruct (died res) eqn:Hd.
    + rewrite (Hfat eq_refl) in Hsc. cbn [Main.truthy snd fst Main.game
        Main.scoreText Main.running Main.pauseText].
      split; [rewrite Hsync; f_equal; lia |].
      intros res' E. injection E as <-. rewrite Hd.
      rewrite andb_false_r. repeat split. intros Hab; discriminate Hab.
    + cbn [Main.truthy snd fst Main.game Main.scoreText Main.running
           Main.pauseText].
      split.
      * destruct (ate res); [reflexivity |]. rewrite Hsync. f_equal. lia.
      * intros res' E. injection E as <-. rewrite Hd, andb_true_r.
        repeat split. intros Hab; discriminate Hab.
  - cbn [snd fst Main.game Main.scoreText meal] in *.
    split; [rewrite Hsync; f_equal; lia |]. intros res E. discriminate E.
Qed.

Lemma stepTick_keeps_page_in_sync_witness :
  display_in_sync (snd (Main.stepTick Main.fresh_page 0)).
Proof.
  apply (stepTick_keeps_page_in_sync Main.fresh_page 0%nat).
  - split; reflexivity.
  - reflexivity.
Defined.

End Page.
